(** * A fixed-capacity circular buffer: [ringbuffer.hpp] and
      [atomic_ringbuffer.hpp]

    Shallow embedding of the two C++ class templates [ringbuffer<N, T>]
    (single-threaded, namespace [ringbuffer]) and
    [datum::utility::ringbuffer<N, T>] (guarded by [detail::rw_mutex]).

    Conventions of the embedding.
    - [std::size_t] values are integers in [Z]; every [size_t] operation of
      the source is followed by its reduction modulo [2^64] ([wrap]).
    - A [backing_ptr] into [buff] is the element offset from [buff.data()],
      so [first] is [0] and [last] is [N - 1].
    - The stored type [T] is a type of plain values with the value [dflt]
      produced by its default constructor; copying an element cannot fail and
      running [~T()] on a slot leaves the stale value in storage.
    - A member function maps the object before the call to an [outcome]: the
      returned value or the exception thrown, together with the object after
      the call; or undefined behaviour; or a call that never returns. *)

From Stdlib Require Import ZArith List Lia String Bool.
Import ListNotations.

Open Scope Z_scope.

(** ** Machine arithmetic and outcomes *)

Definition size_t_range : Z := 2 ^ 64.

(** Reduction of a mathematical integer to [std::size_t]. *)
Definition wrap (z : Z) : Z := z mod size_t_range.

Inductive outcome (S A : Type) : Type :=
| Returns (a : A) (s : S)          (* normal return *)
| Throws (what : string) (s : S)   (* std::out_of_range (what) *)
| Undefined                        (* undefined behaviour *)
| Hangs.                           (* the call never returns *)

Arguments Returns {S A} a s.
Arguments Throws {S A} what s.
Arguments Undefined {S A}.
Arguments Hangs {S A}.

Definition map_outcome {S A B : Type} (f : A -> B) (r : outcome S A)
  : outcome S B :=
  match r with
  | Returns a s => Returns (f a) s
  | Throws w s => Throws w s
  | Undefined => Undefined
  | Hangs => Hangs
  end.

(** The object an outcome leaves behind, when there is one. *)
Definition final_state {S A : Type} (r : outcome S A) : option S :=
  match r with
  | Returns _ s => Some s
  | Throws _ s => Some s
  | Undefined => None
  | Hangs => None
  end.

(** The three [what()] strings of the source. *)
Definition msg_front : string := "cannot access first of empty ringbuffer".
Definition msg_read : string := "invalid read on empty ringbuffer".
Definition msg_bulk : string := "cannot read more than available elements".

(** ** Storage *)

Section Storage.
Context {T : Type}.

(** [*p] for a pointer [p] into [buff].  On every object a caller can
    reach both cursors are inside storage ([reachable_well_formed]), so the
    default of [nth] is never taken. *)
Definition deref (dflt : T) (b : list T) (p : Z) : T :=
  nth (Z.to_nat p) b dflt.

Fixpoint upd (b : list T) (i : nat) (x : T) : list T :=
  match b, i with
  | [], _ => []
  | _ :: t, O => x :: t
  | h :: t, S j => h :: upd t j x
  end.

(** [new (p) T(args...)]: the slot at [p] now holds [x]. *)
Definition store (b : list T) (p : Z) (x : T) : list T :=
  upd b (Z.to_nat p) x.

(** The elements of the iterator range [std::next (begin, lo)],
    [std::next (begin, hi)] of a [std::array] of [cap] elements.  Moving an
    iterator outside [begin, end] is undefined: [None]. *)
Definition slice (cap : Z) (b : list T) (lo hi : Z) : option (list T) :=
  if (0 <=? lo) && (lo <=? hi) && (hi <=? cap)
  then Some (firstn (Z.to_nat (hi - lo)) (skipn (Z.to_nat lo) b))
  else None.

(** [for (auto& e : tmpcopy) result.emplace_back (std::move(e));] *)
Definition emplace_back_all (result tmpcopy : list T) : list T :=
  fold_left (fun r e => r ++ [e]) tmpcopy result.
End Storage.

(** ** The public operation surface *)

Section Surface.
Variable T : Type.

(** One call of a public member function.  The two overloads of [read]
    are [Read] and [ReadN]. *)
Inductive op : Type :=
| Emplace (x : T)
| Pop
| Front
| Read
| ReadN (n : Z)
| SafeRead (n : Z)
| ReadAll
| SafeReadAll
| Erase (n : Z)
| Clear
| Size
| Capacity.

(** What a call hands back to its caller. *)
Inductive value : Type :=
| VUnit
| VElem (x : T)
| VSeq (l : list T)
| VNum (z : Z).

(** What the caller observes of one completed call. *)
Inductive event : Type :=
| Ret (v : value)
| Exn (what : string).

(** Arguments of type [std::size_t] are in range. *)
Definition op_ok (o : op) : Prop :=
  match o with
  | ReadN n | SafeRead n | Erase n => 0 <= n < size_t_range
  | _ => True
  end.

(** The operations that take elements out of the buffer. *)
Definition consuming (o : op) : bool :=
  match o with
  | Pop | Read | ReadN _ | SafeRead _ | ReadAll | SafeReadAll
  | Erase _ | Clear => true
  | _ => false
  end.

(** A caller runs the calls of [ops] one after the other, catching
    [std::out_of_range]. *)
Fixpoint run_with {S : Type} (exec : op -> S -> outcome S value)
         (ops : list op) (s : S) : outcome S (list event) :=
  match ops with
  | [] => Returns [] s
  | o :: rest =>
      match exec o s with
      | Returns v s' => map_outcome (cons (Ret v)) (run_with exec rest s')
      | Throws w s' => map_outcome (cons (Exn w)) (run_with exec rest s')
      | Undefined => Undefined
      | Hangs => Hangs
      end
  end.
End Surface.

Arguments Emplace {T} x.
Arguments Pop {T}.
Arguments Front {T}.
Arguments Read {T}.
Arguments ReadN {T} n.
Arguments SafeRead {T} n.
Arguments ReadAll {T}.
Arguments SafeReadAll {T}.
Arguments Erase {T} n.
Arguments Clear {T}.
Arguments Size {T}.
Arguments Capacity {T}.
Arguments VUnit {T}.
Arguments VElem {T} x.
Arguments VSeq {T} l.
Arguments VNum {T} z.
Arguments Ret {T} v.
Arguments Exn {T} what.
Arguments op_ok {T} o.
Arguments consuming {T} o.
Arguments run_with {T S} exec ops s.

(** ** The single-threaded variant, [ringbuffer.hpp] *)

Module ringbuffer.
Section Defs.
Variable T : Type.
Variable dflt : T.
(** The template parameter [N]. *)
Variable N : Z.

Record ringbuffer : Type := mk {
  buff : list T;
  writepos : Z;
  readpos : Z;
  available : Z
}.

Definition first : Z := 0.
Definition last : Z := N - 1.

Definition wrapfront (p n : Z) : Z :=
  let n := if n >? N then n mod N else n in
  if p + n >? last
  then first + wrap (n - 1 - (last - p))
  else p + n.

(** The constructor. *)
Definition init : ringbuffer :=
  mk (repeat dflt (Z.to_nat N)) first first 0.

(** [None] when an iterator is moved outside storage.  [m] is a
    [std::ptrdiff_t]; [n - m + 1] is computed in [std::size_t]. *)
Definition temporary_copy (n : Z) (s : ringbuffer) : option (list T) :=
  let n := Z.min n (available s) in
  if readpos s + n <=? last then
    let buff_begin := readpos s - first in
    let buff_end := buff_begin + n in
    match slice N (buff s) buff_begin buff_end with
    | Some seg => Some (seg ++ [])
    | None => None
    end
  else
    let m := last - readpos s in
    let first_buff_begin := readpos s - first in
    let first_buff_end := first_buff_begin + (m + 1) in
    let second_buff_begin := 0 in
    let second_buff_end := second_buff_begin + wrap (n - m + 1) in
    match slice N (buff s) first_buff_begin first_buff_end,
          slice N (buff s) second_buff_begin second_buff_end with
    | Some seg1, Some seg2 =>
        (* both ranges are inserted at [std::begin (buffcopy)] *)
        let buffcopy := seg1 ++ [] in
        Some (seg2 ++ buffcopy)
    | _, _ => None
    end.

Definition size (s : ringbuffer) : Z := available s.

Definition capacity (s : ringbuffer) : Z := wrap (N - available s).

Definition emplace (x : T) (s : ringbuffer) : outcome ringbuffer unit :=
  if available s <? N then
    Returns tt (mk (store (buff s) (writepos s) x)
                   (wrapfront (writepos s) 1)
                   (readpos s)
                   (wrap (available s + 1)))
  else Returns tt s.

Definition pop (s : ringbuffer) : outcome ringbuffer unit :=
  if negb (available s =? 0) then
    Returns tt (mk (buff s)
                   (writepos s)
                   (wrapfront (readpos s) 1)
                   (wrap (available s - 1)))
  else Returns tt s.

Definition front (s : ringbuffer) : outcome ringbuffer T :=
  if negb (available s =? 0) then
    Returns (deref dflt (buff s) (readpos s)) s
  else Throws msg_front s.

Definition read (s : ringbuffer) : outcome ringbuffer T :=
  if negb (available s =? 0) then
    let avail := wrap (available s - 1) in
    let p := readpos s in
    Returns (deref dflt (buff s) p)
            (mk (buff s) (writepos s) (wrapfront (readpos s) 1) avail)
  else Throws msg_read s.

(** [while (available-- > cap) { ... }]: the test reads [available] and
    the post-decrement is applied whether or not the test succeeds.  [fuel]
    bounds the number of iterations; [None] when it does not suffice. *)
Fixpoint read_loop (fuel : nat) (cap : Z) (s : ringbuffer)
         (result : list T) : option (list T * ringbuffer) :=
  let tested := available s in
  let s1 := mk (buff s) (writepos s) (readpos s) (wrap (tested - 1)) in
  if tested >? cap then
    match fuel with
    | O => None
    | S fuel' =>
        let p := readpos s1 in
        let s2 := mk (buff s1) (writepos s1)
                     (wrapfront (readpos s1) 1) (available s1) in
        read_loop fuel' cap s2 (result ++ [deref dflt (buff s2) p])
    end
  else Some (result, s1).

Definition read_n (n : Z) (s : ringbuffer)
  : outcome ringbuffer (list T) :=
  if n <=? available s then
    let cap := wrap (available s - n) in
    match read_loop (Z.to_nat n) cap s [] with
    | Some (result, s') => Returns result s'
    | None => Hangs
    end
  else Throws msg_bulk s.

Definition safe_read (n : Z) (s : ringbuffer)
  : outcome ringbuffer (list T) :=
  if n <=? available s then
    match temporary_copy n s with
    | Some tmpcopy =>
        let result := emplace_back_all [] tmpcopy in
        Returns result
                (mk (buff s) (writepos s)
                    (wrapfront (readpos s) n)
                    (wrap (available s - n)))
    | None => Undefined
    end
  else Throws msg_bulk s.

Definition read_all (s : ringbuffer) : outcome ringbuffer (list T) :=
  read_n (available s) s.

Definition safe_read_all (s : ringbuffer) : outcome ringbuffer (list T) :=
  safe_read (available s) s.

(** [while (m--) { ... }], with [fuel] as in [read_loop]. *)
Fixpoint erase_loop (fuel : nat) (m : Z) (s : ringbuffer)
  : option ringbuffer :=
  if negb (m =? 0) then
    match fuel with
    | O => None
    | S fuel' =>
        erase_loop fuel' (wrap (m - 1))
                   (mk (buff s) (writepos s)
                       (wrapfront (readpos s) 1)
                       (wrap (available s - 1)))
    end
  else Some s.

Definition erase (n : Z) (s : ringbuffer) : outcome ringbuffer unit :=
  let m := Z.min n (available s) in
  match erase_loop (Z.to_nat m) m s with
  | Some s' => Returns tt s'
  | None => Hangs
  end.

Definition clear (s : ringbuffer) : outcome ringbuffer unit :=
  erase (available s) s.

Definition exec (o : op T) (s : ringbuffer) : outcome ringbuffer (value T) :=
  match o with
  | Emplace x => map_outcome (fun _ => VUnit) (emplace x s)
  | Pop => map_outcome (fun _ => VUnit) (pop s)
  | Front => map_outcome VElem (front s)
  | Read => map_outcome VElem (read s)
  | ReadN n => map_outcome VSeq (read_n n s)
  | SafeRead n => map_outcome VSeq (safe_read n s)
  | ReadAll => map_outcome VSeq (read_all s)
  | SafeReadAll => map_outcome VSeq (safe_read_all s)
  | Erase n => map_outcome (fun _ => VUnit) (erase n s)
  | Clear => map_outcome (fun _ => VUnit) (clear s)
  | Size => Returns (VNum (size s)) s
  | Capacity => Returns (VNum (capacity s)) s
  end.

Definition run (ops : list (op T)) (s : ringbuffer)
  : outcome ringbuffer (list (event T)) :=
  run_with exec ops s.
End Defs.

Arguments mk {T} buff writepos readpos available.
Arguments buff {T} r.
Arguments writepos {T} r.
Arguments readpos {T} r.
Arguments available {T} r.
End ringbuffer.

(** ** The concurrent variant, [atomic_ringbuffer.hpp]

    The calls are those of one caller at a time: a [load] or [store] of a
    [std::atomic] field is a read or write of the field,
    [std::min (n, available)] is the minimum of [n] and the loaded count,
    and a lock operation that has to wait for the mutex waits for ever. *)

Module datum.
Section Defs.
Variable T : Type.
Variable dflt : T.
Variable N : Z.

(** [detail::rw_mutex]: [mut] is [true] while the [std::mutex] is held. *)
Record rw_mutex : Type := mk_mutex {
  mut : bool;
  readers : Z
}.

(** [mut.lock (); readers += 1; mut.unlock ();].  [std::mutex::lock] does
    not return while the mutex is held; in a run of one caller nobody
    else releases it: [None]. *)
Definition read_lock (l : rw_mutex) : option rw_mutex :=
  if mut l then None
  else Some (mk_mutex false (wrap (readers l + 1))).

Definition read_unlock (l : rw_mutex) : rw_mutex :=
  if negb (readers l =? 0)
  then mk_mutex (mut l) (wrap (readers l - 1))
  else l.

(** [while (!mut.try_lock()) continue;] spins for as long as the mutex is
    held: [None] when it is held on entry. *)
Definition write_lock (l : rw_mutex) : option rw_mutex :=
  if mut l then None
  else Some (mk_mutex true (readers l)).

Definition write_unlock (l : rw_mutex) : rw_mutex :=
  mk_mutex false (readers l).

Record ringbuffer : Type := mk {
  buff : list T;
  writepos : Z;
  readpos : Z;
  available : Z;
  rwlock : rw_mutex
}.

Definition set_rwlock (s : ringbuffer) (l : rw_mutex) : ringbuffer :=
  mk (buff s) (writepos s) (readpos s) (available s) l.

(** The destructor of a scoped entity runs on every way out of the
    scope. *)
Definition at_scope_exit {A : Type} (release : rw_mutex -> rw_mutex)
           (r : outcome ringbuffer A) : outcome ringbuffer A :=
  match r with
  | Returns a s => Returns a (set_rwlock s (release (rwlock s)))
  | Throws w s => Throws w (set_rwlock s (release (rwlock s)))
  | Undefined => Undefined
  | Hangs => Hangs
  end.

(** [auto write = rwlock.writer ();] followed by the rest of the scope. *)
Definition writer {A : Type} (body : ringbuffer -> outcome ringbuffer A)
           (s : ringbuffer) : outcome ringbuffer A :=
  match write_lock (rwlock s) with
  | Some l => at_scope_exit write_unlock (body (set_rwlock s l))
  | None => Hangs
  end.

(** [auto read = rwlock.reader ();] followed by the rest of the scope. *)
Definition reader {A : Type} (body : ringbuffer -> outcome ringbuffer A)
           (s : ringbuffer) : outcome ringbuffer A :=
  match read_lock (rwlock s) with
  | Some l => at_scope_exit read_unlock (body (set_rwlock s l))
  | None => Hangs
  end.

Definition first : Z := 0.
Definition last : Z := N - 1.

Definition wrapfront (p n : Z) : Z :=
  let n := if n >? N then n mod N else n in
  if p + n >? last
  then first + wrap (n - 1 - (last - p))
  else p + n.

Definition init : ringbuffer :=
  mk (repeat dflt (Z.to_nat N)) first first 0 (mk_mutex false 0).

Definition temporary_copy (n : Z) : ringbuffer
                                    -> outcome ringbuffer (list T) :=
  reader (fun s =>
    let n := Z.min n (available s) in
    if readpos s + n <=? last then
      let buff_begin := readpos s - first in
      let buff_end := buff_begin + n in
      match slice N (buff s) buff_begin buff_end with
      | Some seg => Returns (seg ++ []) s
      | None => Undefined
      end
    else
      let m := last - readpos s in
      let first_buff_begin := readpos s - first in
      let first_buff_end := first_buff_begin + (m + 1) in
      let second_buff_begin := 0 in
      let second_buff_end := second_buff_begin + wrap (n - m + 1) in
      match slice N (buff s) first_buff_begin first_buff_end,
            slice N (buff s) second_buff_begin second_buff_end with
      | Some seg1, Some seg2 =>
          let buffcopy := seg1 ++ [] in
          Returns (seg2 ++ buffcopy) s
      | _, _ => Undefined
      end).

Definition size (s : ringbuffer) : Z := available s.

Definition capacity (s : ringbuffer) : Z := wrap (N - available s).

Definition emplace (x : T) : ringbuffer -> outcome ringbuffer unit :=
  writer (fun s =>
    if available s <? N then
      Returns tt (mk (store (buff s) (writepos s) x)
                     (wrapfront (writepos s) 1)
                     (readpos s)
                     (wrap (available s + 1))
                     (rwlock s))
    else Returns tt s).

Definition pop : ringbuffer -> outcome ringbuffer unit :=
  writer (fun s =>
    if negb (available s =? 0) then
      Returns tt (mk (buff s)
                     (writepos s)
                     (wrapfront (readpos s) 1)
                     (wrap (available s - 1))
                     (rwlock s))
    else Returns tt s).

Definition front : ringbuffer -> outcome ringbuffer T :=
  reader (fun s =>
    if negb (available s =? 0) then
      Returns (deref dflt (buff s) (readpos s)) s
    else Throws msg_front s).

Definition read : ringbuffer -> outcome ringbuffer T :=
  writer (fun s =>
    if negb (available s =? 0) then
      let avail := wrap (available s - 1) in
      let p := readpos s in
      Returns (deref dflt (buff s) p)
              (mk (buff s) (writepos s) (wrapfront (readpos s) 1) avail
                  (rwlock s))
    else Throws msg_read s).

Fixpoint read_loop (fuel : nat) (cap : Z) (s : ringbuffer)
         (result : list T) : option (list T * ringbuffer) :=
  let tested := available s in
  let s1 := mk (buff s) (writepos s) (readpos s) (wrap (tested - 1))
               (rwlock s) in
  if tested >? cap then
    match fuel with
    | O => None
    | S fuel' =>
        let p := readpos s1 in
        let s2 := mk (buff s1) (writepos s1)
                     (wrapfront (readpos s1) 1) (available s1)
                     (rwlock s1) in
        read_loop fuel' cap s2 (result ++ [deref dflt (buff s2) p])
    end
  else Some (result, s1).

Definition read_n (n : Z) : ringbuffer -> outcome ringbuffer (list T) :=
  writer (fun s =>
    if n <=? available s then
      let cap := wrap (available s - n) in
      match read_loop (Z.to_nat n) cap s [] with
      | Some (result, s') => Returns result s'
      | None => Hangs
      end
    else Throws msg_bulk s).

Definition safe_read (n : Z) : ringbuffer -> outcome ringbuffer (list T) :=
  writer (fun s =>
    if n <=? available s then
      match temporary_copy n s with
      | Returns tmpcopy s1 =>
          let result := emplace_back_all [] tmpcopy in
          Returns result
                  (mk (buff s1) (writepos s1)
                      (wrapfront (readpos s1) n)
                      (wrap (available s1 - n))
                      (rwlock s1))
      | Throws w s1 => Throws w s1
      | Undefined => Undefined
      | Hangs => Hangs
      end
    else Throws msg_bulk s).

Definition read_all (s : ringbuffer) : outcome ringbuffer (list T) :=
  read_n (available s) s.

Definition safe_read_all (s : ringbuffer) : outcome ringbuffer (list T) :=
  safe_read (available s) s.

Fixpoint erase_loop (fuel : nat) (m : Z) (s : ringbuffer)
  : option ringbuffer :=
  if negb (m =? 0) then
    match fuel with
    | O => None
    | S fuel' =>
        erase_loop fuel' (wrap (m - 1))
                   (mk (buff s) (writepos s)
                       (wrapfront (readpos s) 1)
                       (wrap (available s - 1))
                       (rwlock s))
    end
  else Some s.

Definition erase (n : Z) : ringbuffer -> outcome ringbuffer unit :=
  writer (fun s =>
    let m := Z.min n (available s) in
    match erase_loop (Z.to_nat m) m s with
    | Some s' => Returns tt s'
    | None => Hangs
    end).

Definition clear (s : ringbuffer) : outcome ringbuffer unit :=
  erase (available s) s.

Definition exec (o : op T) (s : ringbuffer) : outcome ringbuffer (value T) :=
  match o with
  | Emplace x => map_outcome (fun _ => VUnit) (emplace x s)
  | Pop => map_outcome (fun _ => VUnit) (pop s)
  | Front => map_outcome VElem (front s)
  | Read => map_outcome VElem (read s)
  | ReadN n => map_outcome VSeq (read_n n s)
  | SafeRead n => map_outcome VSeq (safe_read n s)
  | ReadAll => map_outcome VSeq (read_all s)
  | SafeReadAll => map_outcome VSeq (safe_read_all s)
  | Erase n => map_outcome (fun _ => VUnit) (erase n s)
  | Clear => map_outcome (fun _ => VUnit) (clear s)
  | Size => Returns (VNum (size s)) s
  | Capacity => Returns (VNum (capacity s)) s
  end.

Definition run (ops : list (op T)) (s : ringbuffer)
  : outcome ringbuffer (list (event T)) :=
  run_with exec ops s.

(** The fields the two variants have in common. *)
Definition sequential (s : ringbuffer) : ringbuffer.ringbuffer T :=
  ringbuffer.mk (buff s) (writepos s) (readpos s) (available s).
End Defs.

Arguments mk {T} buff writepos readpos available rwlock.
Arguments buff {T} r.
Arguments writepos {T} r.
Arguments readpos {T} r.
Arguments available {T} r.
Arguments rwlock {T} r.
Arguments sequential {T} s.
End datum.

(** ** Properties of buffer states *)

Section Properties.
Variable T : Type.
Variable dflt : T.
Variable N : Z.

Import ringbuffer.

(** The amount [wrapfront] advances by: [if (n > N) n = n % N;]. *)
Definition reduced (n : Z) : Z := if n >? N then n mod N else n.

(** What the types of the fields guarantee: storage of [N] slots, both
    cursors inside it, and a count that is a [std::size_t]. *)
Definition well_formed (s : ringbuffer T) : Prop :=
  List.length (buff s) = Z.to_nat N /\
  0 <= writepos s < N /\
  0 <= readpos s < N /\
  0 <= available s < size_t_range.

(** The data-model invariant: the count is at most the capacity and the
    write cursor is the read cursor advanced by the count. *)
Definition invariant (s : ringbuffer T) : Prop :=
  0 <= available s <= N /\
  writepos s = wrapfront N (readpos s) (available s).

(** The [k] slots met when walking forward from cursor [p], wrapping from
    the last slot to the first. *)
Definition walk (b : list T) (p : Z) (k : nat) : list T :=
  map (fun i => deref dflt b ((p + Z.of_nat i) mod N)) (seq 0 k).

(** The [n] oldest elements, oldest first. *)
Definition oldest (n : Z) (s : ringbuffer T) : list T :=
  walk (buff s) (readpos s) (Z.to_nat n).

(** States a caller can bring a fresh buffer to with calls from
    [allowed]. *)
Inductive reachable_by (allowed : op T -> bool) : ringbuffer T -> Prop :=
| reach_init : reachable_by allowed (init T dflt N)
| reach_step (o : op T) (s s' : ringbuffer T) :
    reachable_by allowed s -> allowed o = true -> op_ok o ->
    final_state (exec T dflt N o s) = Some s' ->
    reachable_by allowed s'.

(** States a caller can bring a fresh buffer to. *)
Definition reachable : ringbuffer T -> Prop :=
  reachable_by (fun _ => true).

(** The concurrent object between two calls: mutex free, no reader. *)
Definition quiescent (s : datum.ringbuffer T) : Prop :=
  datum.rwlock s = datum.mk_mutex false 0.

(** A single-threaded object together with a state of the lock. *)
Definition with_lock (l : datum.rw_mutex) (s : ringbuffer T)
  : datum.ringbuffer T :=
  datum.mk (buff s) (writepos s) (readpos s) (available s) l.

(** A single-threaded object seen as a concurrent one at rest. *)
Definition at_rest (s : ringbuffer T) : datum.ringbuffer T :=
  datum.mk (buff s) (writepos s) (readpos s) (available s)
           (datum.mk_mutex false 0).

Definition lift {A : Type} (r : outcome (ringbuffer T) A)
  : outcome (datum.ringbuffer T) A :=
  match r with
  | Returns a s => Returns a (at_rest s)
  | Throws w s => Throws w (at_rest s)
  | Undefined => Undefined
  | Hangs => Hangs
  end.

(** The calls that run the loop of [read (n)]. *)
Definition bulk_reads (o : op T) : bool :=
  match o with
  | ReadN _ | ReadAll => true
  | _ => false
  end.

(** The calls whose body reaches [temporary_copy]. *)
Definition copies (o : op T) : bool :=
  match o with
  | SafeRead _ | SafeReadAll => true
  | _ => false
  end.
(** The live elements, oldest first. *)
Definition contents (s : ringbuffer T) : list T :=
  oldest (available s) s.

(** [pop ()] called [k] times in a row. *)
Fixpoint pop_times (k : nat) (s : ringbuffer T) : ringbuffer T :=
  match k with
  | O => s
  | S k' =>
      match pop T N s with
      | Returns _ s' => pop_times k' s'
      | _ => s
      end
  end.

(** The calls that neither run the loop of [read (n)] nor reach
    [temporary_copy]. *)
Definition plain (o : op T) : bool :=
  negb (bulk_reads o) && negb (copies o).

(** What the caller sees of a call that came to an end, and the object it
    left. *)
Definition observe {S A : Type} (r : outcome S A)
  : option ((A + string) * S) :=
  match r with
  | Returns a s => Some (inl a, s)
  | Throws w s => Some (inr w, s)
  | Undefined => None
  | Hangs => None
  end.

Definition event_of (r : value T + string) : event T :=
  match r with
  | inl v => Ret v
  | inr w => Exn w
  end.

(** A bounded first-in first-out queue of at most [N] elements, as a
    list with the oldest element at its head: what one call shows to the
    caller and the queue it leaves. *)
Definition queue_exec (o : op T) (q : list T)
  : (value T + string) * list T :=
  let n_live := Z.of_nat (List.length q) in
  match o with
  | Emplace x => (inl VUnit, if n_live <? N then q ++ [x] else q)
  | Pop => (inl VUnit, tl q)
  | Front =>
      match q with
      | [] => (inr msg_front, q)
      | x :: _ => (inl (VElem x), q)
      end
  | Read =>
      match q with
      | [] => (inr msg_read, q)
      | x :: q' => (inl (VElem x), q')
      end
  | ReadN n | SafeRead n =>
      if n <=? n_live
      then (inl (VSeq (firstn (Z.to_nat n) q)), skipn (Z.to_nat n) q)
      else (inr msg_bulk, q)
  | ReadAll | SafeReadAll => (inl (VSeq q), [])
  | Erase n => (inl VUnit, skipn (Z.to_nat n) q)
  | Clear => (inl VUnit, [])
  | Size => (inl (VNum n_live), q)
  | Capacity => (inl (VNum (N - n_live)), q)
  end.

Fixpoint queue_run (ops : list (op T)) (q : list T)
  : list (event T) * list T :=
  match ops with
  | [] => ([], q)
  | o :: rest =>
      let (r, q') := queue_exec o q in
      let (evs, q'') := queue_run rest q' in
      (event_of r :: evs, q'')
  end.
End Properties.

Arguments well_formed {T} N s.
Arguments invariant {T} N s.
Arguments walk {T} dflt N b p k.
Arguments oldest {T} dflt N n s.
Arguments quiescent {T} s.
Arguments with_lock {T} l s.
Arguments at_rest {T} s.
Arguments lift {T A} r.
Arguments contents {T} dflt N s.
Arguments pop_times {T} N k s.
Arguments plain {T} o.
Arguments event_of {T} r.
Arguments queue_exec {T} N o q.
Arguments queue_run {T} N ops q.
Arguments bulk_reads {T} o.
Arguments copies {T} o.

(** ** Arithmetic of [wrap] and [wrapfront] *)

Lemma size_t_range_pos : 0 < size_t_range.
Proof. reflexivity. Qed.

Lemma wrap_small (z : Z) : 0 <= z < size_t_range -> wrap z = z.
Proof. intros H. unfold wrap. now apply Z.mod_small. Qed.

Lemma wrap_range (z : Z) : 0 <= wrap z < size_t_range.
Proof. unfold wrap. apply Z.mod_pos_bound. exact size_t_range_pos. Qed.

Lemma wrap_minus_one : wrap (0 - 1) = size_t_range - 1.
Proof. reflexivity. Qed.

Section WrapfrontFacts.
Variable N : Z.
Hypothesis N_pos : 0 < N.
Hypothesis N_size_t : N < size_t_range.

Import ringbuffer.

Lemma reduced_range (n : Z) : 0 <= n -> 0 <= reduced N n <= N.
Proof.
  intros Hn. unfold reduced. destruct (Z.gtb_spec n N).
  - pose proof (Z.mod_pos_bound n N N_pos). lia.
  - lia.
Qed.

Lemma reduced_mod (n : Z) : 0 <= n -> reduced N n mod N = n mod N.
Proof.
  intros Hn. unfold reduced. destruct (n >? N).
  - apply Z.mod_mod. lia.
  - reflexivity.
Qed.

Lemma wrapfront_formula (p n : Z) :
  0 <= p < N -> 0 <= n ->
  wrapfront N p n =
    if p + reduced N n >? last N
    then first + (reduced N n - 1 - (last N - p))
    else p + reduced N n.
Proof.
  intros Hp Hn. unfold wrapfront. fold (reduced N n).
  pose proof (reduced_range n Hn) as Hr.
  destruct (Z.gtb_spec (p + reduced N n) (last N)); [|reflexivity].
  unfold last in *.
  rewrite wrap_small; [reflexivity | lia].
Qed.

Lemma wrapfront_mod (p n : Z) :
  0 <= p < N -> 0 <= n -> wrapfront N p n = (p + n) mod N.
Proof.
  intros Hp Hn. rewrite wrapfront_formula by assumption.
  pose proof (reduced_range n Hn) as Hr.
  rewrite <- (Z.add_mod_idemp_r p n N) by lia.
  rewrite <- (reduced_mod n Hn).
  rewrite Z.add_mod_idemp_r by lia.
  unfold last, first.
  destruct (Z.gtb_spec (p + reduced N n) (N - 1)).
  - apply Z.mod_unique with (q := 1); lia.
  - symmetry. apply Z.mod_small. lia.
Qed.

Lemma wrapfront_range (p n : Z) :
  0 <= p < N -> 0 <= n -> 0 <= wrapfront N p n < N.
Proof.
  intros Hp Hn. rewrite wrapfront_mod by assumption.
  apply Z.mod_pos_bound. exact N_pos.
Qed.

Lemma wrapfront_zero (p : Z) : 0 <= p < N -> wrapfront N p 0 = p.
Proof.
  intros Hp. rewrite wrapfront_mod by lia.
  rewrite Z.add_0_r. apply Z.mod_small. exact Hp.
Qed.

Lemma wrapfront_full (p : Z) : 0 <= p < N -> wrapfront N p N = p.
Proof.
  intros Hp. rewrite wrapfront_mod by lia.
  symmetry. apply Z.mod_unique with (q := 1); lia.
Qed.

Lemma wrapfront_add (p a b : Z) :
  0 <= p < N -> 0 <= a -> 0 <= b ->
  wrapfront N (wrapfront N p a) b = wrapfront N p (a + b).
Proof.
  intros Hp Ha Hb.
  rewrite (wrapfront_mod (wrapfront N p a) b);
    [| apply wrapfront_range; assumption | lia].
  rewrite !wrapfront_mod by lia.
  rewrite Z.add_mod_idemp_l by lia. f_equal. lia.
Qed.
End WrapfrontFacts.

(** ** Storage lemmas *)

Section StorageFacts.
Variable T : Type.
Variable dflt : T.

Lemma upd_length (b : list T) (i : nat) (x : T) :
  List.length (upd b i x) = List.length b.
Proof.
  revert i. induction b as [|h t IH]; intros [|j]; simpl; auto.
Qed.

Lemma upd_app (pre post : list T) (x y : T) :
  upd (pre ++ y :: post) (List.length pre) x = pre ++ x :: post.
Proof.
  induction pre as [|h t IH]; simpl; [reflexivity | now rewrite IH].
Qed.

Lemma upd_nth_same (b : list T) (i : nat) (x : T) :
  (i < List.length b)%nat -> nth i (upd b i x) dflt = x.
Proof.
  revert i. induction b as [|h t IH]; intros [|j] Hi; simpl in *;
    try lia; [reflexivity | apply IH; lia].
Qed.

Lemma upd_nth_other (b : list T) (i j : nat) (x : T) :
  i <> j -> nth j (upd b i x) dflt = nth j b dflt.
Proof.
  revert i j. induction b as [|h t IH]; intros [|i] [|j] Hij; simpl;
    try reflexivity; try congruence.
  apply IH. congruence.
Qed.

Lemma emplace_back_all_app (tmpcopy result : list T) :
  emplace_back_all result tmpcopy = result ++ tmpcopy.
Proof.
  unfold emplace_back_all. revert result.
  induction tmpcopy as [|e t IH]; intros result; simpl.
  - now rewrite app_nil_r.
  - rewrite IH, <- app_assoc. reflexivity.
Qed.

Lemma walk_nil (N : Z) (b : list T) (p : Z) : walk dflt N b p 0 = [].
Proof. reflexivity. Qed.

Lemma walk_cons (N : Z) (b : list T) (p : Z) (k : nat) :
  0 < N -> 0 <= p < N ->
  walk dflt N b p (S k) = deref dflt b p :: walk dflt N b ((p + 1) mod N) k.
Proof.
  intros HN Hp. unfold walk. simpl seq. simpl map.
  rewrite <- seq_shift, map_map. f_equal.
  - rewrite Z.add_0_r, Z.mod_small by lia. reflexivity.
  - apply map_ext. intros i.
    rewrite Z.add_mod_idemp_l by lia. do 2 f_equal. lia.
Qed.

Lemma walk_length (N : Z) (b : list T) (p : Z) (k : nat) :
  List.length (walk dflt N b p k) = k.
Proof. unfold walk. now rewrite length_map, length_seq. Qed.

(** Walking a whole array from its first slot lists the array. *)
Lemma walk_all (N : Z) (b : list T) :
  List.length b = Z.to_nat N ->
  walk dflt N b 0 (Z.to_nat N) = b.
Proof.
  intros Hlen. unfold walk.
  apply nth_ext with (d := dflt) (d' := dflt).
  - now rewrite length_map, length_seq.
  - intros i Hi. rewrite length_map, length_seq in Hi.
    set (f := fun i : nat => deref dflt b ((0 + Z.of_nat i) mod N)).
    rewrite nth_indep with (d' := f 0%nat)
      by now rewrite length_map, length_seq.
    rewrite map_nth, seq_nth by assumption.
    unfold f, deref. rewrite Z.mod_small by lia. f_equal. lia.
Qed.

(** A span that does not pass the end of storage is a plain sub-range. *)
Lemma walk_contiguous (N : Z) (b : list T) (p : Z) (k : nat) :
  List.length b = Z.to_nat N -> 0 <= p -> p + Z.of_nat k <= N ->
  firstn k (skipn (Z.to_nat p) b) = walk dflt N b p k.
Proof.
  intros Hlen Hp Hk. unfold walk.
  apply nth_ext with (d := dflt) (d' := dflt).
  - rewrite length_firstn, length_skipn, length_map, length_seq. lia.
  - intros i Hi. rewrite length_firstn, length_skipn in Hi.
    assert (Hik : (i < k)%nat) by lia.
    set (f := fun i : nat => deref dflt b ((p + Z.of_nat i) mod N)).
    rewrite nth_indep with (d' := f 0%nat) (l := map f (seq 0 k))
      by now rewrite length_map, length_seq.
    rewrite map_nth, seq_nth by assumption.
    rewrite nth_firstn, nth_skipn.
    destruct (Nat.ltb_spec i k); [|lia].
    unfold f, deref. rewrite Z.mod_small by lia. f_equal. lia.
Qed.
End StorageFacts.

(** ** The loops of the single-threaded variant *)

Section LoopFacts.
Variable T : Type.
Variable dflt : T.
Variable N : Z.
Hypothesis N_pos : 0 < N.
Hypothesis N_size_t : N < size_t_range.

Import ringbuffer.

(** [k] iterations of the loop of [read (n)] from a count [cap + k]: the
    [k] oldest elements are appended, the read cursor has advanced by [k]
    and the count ends one below [cap]. *)
Lemma read_loop_runs (k : nat) :
  forall (fuel : nat) (cap : Z) (s : ringbuffer T) (acc : list T),
    (k <= fuel)%nat ->
    0 <= cap ->
    available s = cap + Z.of_nat k ->
    available s < size_t_range ->
    0 <= readpos s < N ->
    read_loop T dflt N fuel cap s acc =
      Some (acc ++ walk dflt N (buff s) (readpos s) k,
            mk (buff s) (writepos s)
               (wrapfront N (readpos s) (Z.of_nat k))
               (wrap (cap - 1))).
Proof.
  induction k as [|k IH]; intros fuel cap s acc Hfuel Hcap Hav Hlt Hrp.
  - assert (E : (available s >? cap) = false)
      by (destruct (Z.gtb_spec (available s) cap); [lia | reflexivity]).
    change (Z.of_nat 0) with 0 in *.
    rewrite walk_nil, app_nil_r, wrapfront_zero by assumption.
    replace (cap - 1) with (available s - 1) by lia.
    destruct fuel; cbn [read_loop]; rewrite E; reflexivity.
  - assert (E : (available s >? cap) = true)
      by (destruct (Z.gtb_spec (available s) cap); [reflexivity | lia]).
    destruct fuel as [|fuel]; [lia|].
    cbn [read_loop]. rewrite E.
    cbn [buff writepos readpos available].
    rewrite IH with (cap := cap); cbn [buff writepos readpos available].
    + rewrite walk_cons by assumption.
      rewrite <- app_assoc. cbn [app].
      rewrite wrapfront_add by (assumption || lia).
      rewrite (wrapfront_mod N N_pos N_size_t (readpos s) 1) by lia.
      do 4 f_equal. lia.
    + lia.
    + assumption.
    + rewrite wrap_small; lia.
    + pose proof (wrap_range (available s - 1)). lia.
    + apply wrapfront_range; try assumption; lia.
Qed.

(** [k] iterations of the loop of [erase]. *)
Lemma erase_loop_runs (k : nat) :
  forall (fuel : nat) (s : ringbuffer T),
    (k <= fuel)%nat ->
    Z.of_nat k <= available s < size_t_range ->
    0 <= readpos s < N ->
    erase_loop T N fuel (Z.of_nat k) s =
      Some (mk (buff s) (writepos s)
               (wrapfront N (readpos s) (Z.of_nat k))
               (available s - Z.of_nat k)).
Proof.
  induction k as [|k IH]; intros fuel s Hfuel Hav Hrp.
  - destruct fuel; simpl; rewrite wrapfront_zero by assumption;
      rewrite Z.sub_0_r; destruct s; reflexivity.
  - destruct fuel as [|fuel]; [lia|].
    cbn [erase_loop].
    assert (E : (Z.of_nat (S k) =? 0) = false) by (apply Z.eqb_neq; lia).
    rewrite E. cbn [negb].
    replace (wrap (Z.of_nat (S k) - 1)) with (Z.of_nat k)
      by (rewrite wrap_small; lia).
    rewrite IH; cbn [buff writepos readpos available].
    + rewrite wrapfront_add by (assumption || lia).
      rewrite wrap_small by lia.
      do 2 f_equal; [f_equal|]; lia.
    + lia.
    + rewrite wrap_small; lia.
    + apply wrapfront_range; try assumption; lia.
Qed.
End LoopFacts.

(** ** What the calls of the single-threaded variant do *)

Section CallFacts.
Variable T : Type.
Variable dflt : T.
Variable N : Z.
Hypothesis N_pos : 0 < N.
Hypothesis N_size_t : N < size_t_range.

Import ringbuffer.

(** [read (n)] with [n <= available]: the [n] oldest elements come back,
    the read cursor advances by [n], and the count drops by [n + 1]
    modulo [2^64]. *)
Lemma read_n_returns (n : Z) (s : ringbuffer T) :
  well_formed N s -> 0 <= n <= available s ->
  read_n T dflt N n s =
    Returns (oldest dflt N n s)
            (mk (buff s) (writepos s)
                (wrapfront N (readpos s) n)
                (wrap (available s - n - 1))).
Proof.
  intros (Hlen & Hw & Hr & Ha) Hn. unfold read_n.
  destruct (Z.leb_spec n (available s)) as [_|]; [|lia].
  rewrite (wrap_small (available s - n)) by lia.
  rewrite read_loop_runs with (k := Z.to_nat n);
    try assumption; try lia.
  rewrite Z2Nat.id by lia. reflexivity.
Qed.

(** [erase (n)] takes [min (n, available)] elements off the front. *)
Lemma erase_returns (n : Z) (s : ringbuffer T) :
  well_formed N s -> 0 <= n ->
  erase T N n s =
    Returns tt
            (mk (buff s) (writepos s)
                (wrapfront N (readpos s) (Z.min n (available s)))
                (available s - Z.min n (available s))).
Proof.
  intros (Hlen & Hw & Hr & Ha) Hn. unfold erase.
  set (m := Z.min n (available s)).
  assert (Hm : 0 <= m <= available s) by (unfold m; lia).
  rewrite <- (Z2Nat.id m) at 2 by lia.
  rewrite erase_loop_runs; try assumption; try lia.
  rewrite Z2Nat.id by lia. reflexivity.
Qed.

Lemma store_length (b : list T) (p : Z) (x : T) :
  List.length (store b p x) = List.length b.
Proof. apply upd_length. Qed.

(** Every call leaves storage of [N] slots, cursors inside it and a count
    that is a [std::size_t]. *)
Lemma exec_well_formed (o : op T) (s s' : ringbuffer T) :
  well_formed N s -> op_ok o ->
  final_state (exec T dflt N o s) = Some s' ->
  well_formed N s'.
Proof.
  intros Hwf Hok Hfin.
  pose proof Hwf as (Hlen & Hw & Hr & Ha).
  assert (Hstep : forall p, 0 <= p < N -> 0 <= wrapfront N p 1 < N)
    by (intros p Hp; apply wrapfront_range; try assumption; lia).
  destruct o; cbn [exec] in Hfin.
  - (* emplace *)
    unfold emplace in Hfin. destruct (available s <? N);
      cbn in Hfin; inversion Hfin; subst; [|assumption].
    repeat split; cbn [buff writepos readpos available];
      try (apply wrap_range); try lia; try (apply Hstep; lia).
    now rewrite store_length.
  - (* pop *)
    unfold pop in Hfin. destruct (negb (available s =? 0));
      cbn in Hfin; inversion Hfin; subst; [|assumption].
    repeat split; cbn [buff writepos readpos available];
      try (apply wrap_range); try lia; try (apply Hstep; lia).
  - (* front *)
    unfold front in Hfin. destruct (negb (available s =? 0));
      cbn in Hfin; inversion Hfin; subst; assumption.
  - (* read *)
    unfold read in Hfin. destruct (negb (available s =? 0));
      cbn in Hfin; inversion Hfin; subst; [|assumption].
    repeat split; cbn [buff writepos readpos available];
      try (apply wrap_range); try lia; try (apply Hstep; lia).
  - (* read (n) *)
    cbn [op_ok] in Hok.
    destruct (Z.leb_spec n (available s)) as [Hle|Hgt].
    + rewrite read_n_returns in Hfin by (assumption || lia).
      cbn in Hfin. inversion Hfin; subst.
      repeat split; cbn [buff writepos readpos available];
        try (apply wrap_range); try lia.
      all: apply wrapfront_range; try assumption; lia.
    + unfold read_n in Hfin.
      destruct (Z.leb_spec n (available s)); [lia|].
      cbn in Hfin. inversion Hfin; subst; assumption.
  - (* safe_read (n) *)
    cbn [op_ok] in Hok. unfold safe_read in Hfin.
    destruct (n <=? available s);
      [| cbn in Hfin; inversion Hfin; subst; assumption].
    destruct (temporary_copy T N n s); cbn in Hfin; [|discriminate].
    inversion Hfin; subst.
    repeat split; cbn [buff writepos readpos available];
      try (apply wrap_range); try lia.
    all: apply wrapfront_range; try assumption; lia.
  - (* read_all *)
    unfold read_all in Hfin.
    rewrite read_n_returns in Hfin by (assumption || lia).
    cbn in Hfin. inversion Hfin; subst.
    repeat split; cbn [buff writepos readpos available];
      try (apply wrap_range); try lia.
    all: apply wrapfront_range; try assumption; lia.
  - (* safe_read_all *)
    unfold safe_read_all, safe_read in Hfin.
    destruct (available s <=? available s);
      [| cbn in Hfin; inversion Hfin; subst; assumption].
    destruct (temporary_copy T N (available s) s);
      cbn in Hfin; [|discriminate].
    inversion Hfin; subst.
    repeat split; cbn [buff writepos readpos available];
      try (apply wrap_range); try lia.
    all: apply wrapfront_range; try assumption; lia.
  - (* erase *)
    cbn [op_ok] in Hok.
    rewrite erase_returns in Hfin by (assumption || lia).
    cbn in Hfin. inversion Hfin; subst.
    repeat split; cbn [buff writepos readpos available]; try lia.
    all: apply wrapfront_range; try assumption; lia.
  - (* clear *)
    unfold clear in Hfin.
    rewrite erase_returns in Hfin by (assumption || lia).
    cbn in Hfin. inversion Hfin; subst.
    repeat split; cbn [buff writepos readpos available]; try lia.
    all: apply wrapfront_range; try assumption; lia.
  - cbn in Hfin. inversion Hfin; subst; assumption.
  - cbn in Hfin. inversion Hfin; subst; assumption.
Qed.

(** [safe_read (n)] when the span ends before the last slot: the copy is
    the [n] oldest elements. *)
Lemma safe_read_contiguous (n : Z) (s : ringbuffer T) :
  well_formed N s -> 0 <= n <= available s ->
  readpos s + n <= last N ->
  safe_read T N n s =
    Returns (oldest dflt N n s)
            (mk (buff s) (writepos s) (readpos s + n) (available s - n)).
Proof.
  intros (Hlen & Hw & Hr & Ha) Hn Hspan. unfold safe_read, temporary_copy.
  destruct (Z.leb_spec n (available s)); [|lia].
  rewrite Z.min_l by lia.
  destruct (Z.leb_spec (readpos s + n) (last N)); [|lia].
  unfold last, first in *. unfold slice.
  destruct (Z.leb_spec 0 (readpos s - 0)); [|lia].
  destruct (Z.leb_spec (readpos s - 0) (readpos s - 0 + n)); [|lia].
  destruct (Z.leb_spec (readpos s - 0 + n) N); [|lia].
  cbn [andb]. rewrite app_nil_r, emplace_back_all_app. cbn [app].
  rewrite wrapfront_mod, Z.mod_small, wrap_small by lia.
  replace (readpos s - 0 + n - (readpos s - 0)) with n by lia.
  rewrite Z.sub_0_r.
  rewrite (walk_contiguous T dflt N) by (assumption || lia).
  reflexivity.
Qed.

(** The loops of the single-threaded variant come to an end. *)
Lemma exec_never_hangs (o : op T) (s : ringbuffer T) :
  well_formed N s -> op_ok o -> exec T dflt N o s <> Hangs.
Proof.
  intros Hwf Hok. pose proof Hwf as (Hlen & Hw & Hr & Ha).
  destruct o; cbn [exec op_ok] in *.
  - unfold emplace. destruct (available s <? N); discriminate.
  - unfold pop. destruct (negb (available s =? 0)); discriminate.
  - unfold front. destruct (negb (available s =? 0)); discriminate.
  - unfold read. destruct (negb (available s =? 0)); discriminate.
  - destruct (Z.leb_spec n (available s)).
    + rewrite read_n_returns by (assumption || lia). discriminate.
    + unfold read_n. destruct (Z.leb_spec n (available s)); [lia|].
      discriminate.
  - unfold safe_read. destruct (n <=? available s); [|discriminate].
    destruct (temporary_copy T N n s); discriminate.
  - unfold read_all. rewrite read_n_returns by (assumption || lia).
    discriminate.
  - unfold safe_read_all, safe_read.
    destruct (available s <=? available s); [|discriminate].
    destruct (temporary_copy T N (available s) s); discriminate.
  - rewrite erase_returns by (assumption || lia). discriminate.
  - unfold clear. rewrite erase_returns by (assumption || lia).
    discriminate.
  - discriminate.
  - discriminate.
Qed.

Lemma init_well_formed : well_formed N (init T dflt N).
Proof.
  unfold init, first. repeat split; cbn [buff writepos readpos available];
    try lia.
  apply repeat_length.
Qed.

Lemma reachable_by_well_formed (allowed : op T -> bool)
      (s : ringbuffer T) :
  reachable_by T dflt N allowed s -> well_formed N s.
Proof.
  induction 1 as [|o s s' _ IH _ Hok Hfin].
  - apply init_well_formed.
  - eapply exec_well_formed; eassumption.
Qed.

Lemma reachable_well_formed (s : ringbuffer T) :
  reachable T dflt N s -> well_formed N s.
Proof. apply reachable_by_well_formed. Qed.
End CallFacts.

(** ** The data-model invariant, call by call *)

Section InvariantFacts.
Variable T : Type.
Variable dflt : T.
Variable N : Z.
Hypothesis N_pos : 0 < N.
Hypothesis N_size_t : N < size_t_range.

Import ringbuffer.

Lemma init_invariant : invariant N (init T dflt N).
Proof.
  unfold invariant, init, first. cbn [writepos readpos available].
  split; [lia|]. now rewrite wrapfront_zero by lia.
Qed.

Local Ltac finish_invariant :=
  cbn [buff writepos readpos available];
  rewrite ?wrap_small by lia;
  split; [lia|];
  try (match goal with H : writepos _ = _ |- _ => rewrite H end);
  rewrite ?wrapfront_add by (assumption || lia);
  f_equal; lia.

(** Every call except the two that run the loop of [read (n)] keeps the
    invariant. *)
Lemma exec_invariant (o : op T) (s s' : ringbuffer T) :
  well_formed N s -> invariant N s -> op_ok o ->
  bulk_reads o = false ->
  final_state (exec T dflt N o s) = Some s' ->
  invariant N s'.
Proof.
  intros Hwf Hinv Hok Hnb Hfin.
  pose proof Hwf as (Hlen & Hw & Hr & Ha).
  pose proof Hinv as (Hcnt & Hcur).
  destruct o; try discriminate Hnb; cbn [exec] in Hfin.
  - unfold emplace in Hfin.
    destruct (Z.ltb_spec (available s) N);
      cbn in Hfin; inversion Hfin; subst; [|assumption].
    unfold invariant. finish_invariant.
  - unfold pop in Hfin.
    destruct (Z.eqb_spec (available s) 0);
      cbn in Hfin; inversion Hfin; subst; [assumption|].
    unfold invariant. finish_invariant.
  - unfold front in Hfin.
    destruct (negb (available s =? 0));
      cbn in Hfin; inversion Hfin; subst; assumption.
  - unfold read in Hfin.
    destruct (Z.eqb_spec (available s) 0);
      cbn in Hfin; inversion Hfin; subst; [assumption|].
    unfold invariant. finish_invariant.
  - cbn [op_ok] in Hok. unfold safe_read in Hfin.
    destruct (Z.leb_spec n (available s));
      [| cbn in Hfin; inversion Hfin; subst; assumption].
    destruct (temporary_copy T N n s); cbn in Hfin; [|discriminate].
    inversion Hfin; subst.
    unfold invariant. finish_invariant.
  - unfold safe_read_all, safe_read in Hfin.
    destruct (Z.leb_spec (available s) (available s)); [|lia].
    destruct (temporary_copy T N (available s) s);
      cbn in Hfin; [|discriminate].
    inversion Hfin; subst.
    unfold invariant. finish_invariant.
  - cbn [op_ok] in Hok.
    rewrite erase_returns in Hfin by (assumption || lia).
    cbn in Hfin. inversion Hfin; subst.
    unfold invariant. finish_invariant.
  - unfold clear in Hfin.
    rewrite erase_returns in Hfin by (assumption || lia).
    cbn in Hfin. inversion Hfin; subst.
    unfold invariant. finish_invariant.
  - cbn in Hfin. inversion Hfin; subst; assumption.
  - cbn in Hfin. inversion Hfin; subst; assumption.
Qed.

(** As long as the caller stays away from [read (n)] and [read_all ()],
    the invariant holds after every call. *)
Lemma invariant_without_bulk_reads (s : ringbuffer T) :
  reachable_by T dflt N (fun o => negb (bulk_reads o)) s ->
  invariant N s.
Proof.
  induction 1 as [|o s s' Hreach IH Hallowed Hok Hfin].
  - apply init_invariant.
  - apply negb_true_iff in Hallowed.
    eapply exec_invariant; try eassumption.
    eapply reachable_by_well_formed; eassumption.
Qed.
End InvariantFacts.

(** ** The concurrent variant in the hands of a single caller *)

Section SingleCaller.
Variable T : Type.
Variable dflt : T.
Variable N : Z.

Lemma datum_read_loop (l : datum.rw_mutex) (fuel : nat) :
  forall (cap : Z) (s : ringbuffer.ringbuffer T) (acc : list T),
    datum.read_loop T dflt N fuel cap (with_lock l s) acc =
      match ringbuffer.read_loop T dflt N fuel cap s acc with
      | Some (result, s') => Some (result, with_lock l s')
      | None => None
      end.
Proof.
  induction fuel as [|fuel IH]; intros cap s acc;
    cbn [datum.read_loop ringbuffer.read_loop];
    cbn [with_lock datum.available ringbuffer.available];
    destruct (ringbuffer.available s >? cap); try reflexivity.
  apply (IH cap (ringbuffer.mk _ _ _ _)).
Qed.

Lemma datum_erase_loop (l : datum.rw_mutex) (fuel : nat) :
  forall (m : Z) (s : ringbuffer.ringbuffer T),
    datum.erase_loop T N fuel m (with_lock l s) =
      option_map (with_lock l) (ringbuffer.erase_loop T N fuel m s).
Proof.
  induction fuel as [|fuel IH]; intros m s;
    cbn [datum.erase_loop ringbuffer.erase_loop];
    destruct (negb (m =? 0)); try reflexivity.
  apply (IH _ (ringbuffer.mk _ _ _ _)).
Qed.

(** A call that takes the writer entity and then reaches
    [temporary_copy] never returns: [read_lock] waits for the mutex the
    call itself holds. *)
Lemma datum_safe_read_hangs (n : Z) (s : datum.ringbuffer T) :
  n <= datum.available s ->
  datum.safe_read T N n s = Hangs.
Proof.
  intros Hn. unfold datum.safe_read, datum.writer, datum.write_lock.
  destruct (datum.mut (datum.rwlock s)); [reflexivity|].
  cbn [datum.set_rwlock datum.available].
  destruct (Z.leb_spec n (datum.available s)); [|lia].
  reflexivity.
Qed.

Lemma datum_safe_read_throws (n : Z) (s : ringbuffer.ringbuffer T) :
  ringbuffer.available s < n ->
  datum.safe_read T N n (at_rest s) = Throws msg_bulk (at_rest s).
Proof.
  intros Hn. unfold datum.safe_read, datum.writer, datum.write_lock.
  cbn. destruct (Z.leb_spec n (ringbuffer.available s)); [lia|].
  reflexivity.
Qed.

(** Apart from the calls that reach [temporary_copy], a call on the
    concurrent object at rest does what the same call does on the
    single-threaded object, and leaves the object at rest. *)
Lemma datum_exec_at_rest (o : op T) (s : ringbuffer.ringbuffer T) :
  copies o = false ->
  datum.exec T dflt N o (at_rest s) =
    lift (ringbuffer.exec T dflt N o s).
Proof.
  intros Hc. destruct o; try discriminate Hc;
    cbn [datum.exec ringbuffer.exec].
  - unfold datum.emplace, ringbuffer.emplace, datum.writer. cbn.
    destruct (ringbuffer.available s <? N); reflexivity.
  - unfold datum.pop, ringbuffer.pop, datum.writer. cbn.
    destruct (negb (ringbuffer.available s =? 0)); reflexivity.
  - unfold datum.front, ringbuffer.front, datum.reader. cbn.
    destruct (negb (ringbuffer.available s =? 0)); reflexivity.
  - unfold datum.read, ringbuffer.read, datum.writer. cbn.
    destruct (negb (ringbuffer.available s =? 0)); reflexivity.
  - unfold datum.read_n, ringbuffer.read_n, datum.writer.
    cbn [at_rest datum.rwlock datum.write_lock datum.mut
         datum.set_rwlock datum.buff datum.writepos datum.readpos
         datum.available datum.readers].
    destruct (n <=? ringbuffer.available s); [|reflexivity].
    rewrite (datum_read_loop (datum.mk_mutex true 0) _ _ s).
    destruct (ringbuffer.read_loop T dflt N (Z.to_nat n)
                (wrap (ringbuffer.available s - n)) s [])
      as [[result s']|]; reflexivity.
  - unfold datum.read_all, ringbuffer.read_all,
      datum.read_n, ringbuffer.read_n, datum.writer.
    cbn [at_rest datum.rwlock datum.write_lock datum.mut
         datum.set_rwlock datum.buff datum.writepos datum.readpos
         datum.available datum.readers].
    destruct (ringbuffer.available s <=? ringbuffer.available s);
      [|reflexivity].
    rewrite (datum_read_loop (datum.mk_mutex true 0) _ _ s).
    destruct (ringbuffer.read_loop T dflt N
                (Z.to_nat (ringbuffer.available s))
                (wrap (ringbuffer.available s - ringbuffer.available s))
                s [])
      as [[result s']|]; reflexivity.
  - unfold datum.erase, ringbuffer.erase, datum.writer.
    cbn [at_rest datum.rwlock datum.write_lock datum.mut
         datum.set_rwlock datum.buff datum.writepos datum.readpos
         datum.available datum.readers].
    rewrite (datum_erase_loop (datum.mk_mutex true 0) _ _ s).
    destruct (ringbuffer.erase_loop T N
                (Z.to_nat (Z.min n (ringbuffer.available s)))
                (Z.min n (ringbuffer.available s)) s)
      as [s'|]; reflexivity.
  - unfold datum.clear, ringbuffer.clear,
      datum.erase, ringbuffer.erase, datum.writer.
    cbn [at_rest datum.rwlock datum.write_lock datum.mut
         datum.set_rwlock datum.buff datum.writepos datum.readpos
         datum.available datum.readers].
    rewrite (datum_erase_loop (datum.mk_mutex true 0) _ _ s).
    destruct (ringbuffer.erase_loop T N _ _ s) as [s'|]; reflexivity.
  - reflexivity.
  - reflexivity.
Qed.

Lemma datum_run_at_rest (ops : list (op T)) :
  forall s : ringbuffer.ringbuffer T,
    forallb (fun o => negb (copies o)) ops = true ->
    datum.run T dflt N ops (at_rest s) =
      lift (ringbuffer.run T dflt N ops s).
Proof.
  unfold datum.run, ringbuffer.run.
  induction ops as [|o ops IH]; intros s Hops; [reflexivity|].
  cbn [forallb] in Hops. apply andb_prop in Hops as [Ho Hops].
  apply negb_true_iff in Ho.
  cbn [run_with]. rewrite datum_exec_at_rest by assumption.
  destruct (ringbuffer.exec T dflt N o s) as [v s'|w s'| |];
    cbn [lift]; try reflexivity.
  - rewrite IH by assumption.
    destruct (run_with (ringbuffer.exec T dflt N) ops s'); reflexivity.
  - rewrite IH by assumption.
    destruct (run_with (ringbuffer.exec T dflt N) ops s'); reflexivity.
Qed.
End SingleCaller.

(** ** Frame lemmas for the loops *)

Section FrameFacts.
Variable T : Type.
Variable dflt : T.
Variable N : Z.

Import ringbuffer.

Lemma read_loop_frame (fuel : nat) :
  forall (cap : Z) (s s' : ringbuffer T) (acc result : list T),
    read_loop T dflt N fuel cap s acc = Some (result, s') ->
    buff s' = buff s /\ writepos s' = writepos s.
Proof.
  induction fuel as [|fuel IH]; intros cap s s' acc result;
    cbn [read_loop]; destruct (available s >? cap); intros H;
    try discriminate.
  - inversion H; subst. split; reflexivity.
  - apply IH in H. exact H.
  - inversion H; subst. split; reflexivity.
Qed.

Lemma erase_loop_frame (fuel : nat) :
  forall (m : Z) (s s' : ringbuffer T),
    erase_loop T N fuel m s = Some s' ->
    buff s' = buff s /\ writepos s' = writepos s.
Proof.
  induction fuel as [|fuel IH]; intros m s s';
    cbn [erase_loop]; destruct (negb (m =? 0)); intros H;
    try discriminate.
  - inversion H; subst. split; reflexivity.
  - apply IH in H. exact H.
  - inversion H; subst. split; reflexivity.
Qed.

(** A consuming call rewrites neither storage nor the write cursor. *)
Lemma consuming_frame (o : op T) (s s' : ringbuffer T) :
  consuming o = true ->
  final_state (exec T dflt N o s) = Some s' ->
  buff s' = buff s /\ writepos s' = writepos s.
Proof.
  intros Hc Hfin. destruct o; try discriminate Hc; cbn [exec] in Hfin.
  - unfold pop in Hfin. destruct (negb (available s =? 0));
      cbn in Hfin; inversion Hfin; subst; split; reflexivity.
  - unfold read in Hfin. destruct (negb (available s =? 0));
      cbn in Hfin; inversion Hfin; subst; split; reflexivity.
  - unfold read_n in Hfin. destruct (n <=? available s);
      [| cbn in Hfin; inversion Hfin; subst; split; reflexivity].
    destruct (read_loop T dflt N (Z.to_nat n)
                (wrap (available s - n)) s []) as [[r s1]|] eqn:E;
      cbn in Hfin; [|discriminate].
    inversion Hfin; subst. eapply read_loop_frame; eassumption.
  - unfold safe_read in Hfin. destruct (n <=? available s);
      [| cbn in Hfin; inversion Hfin; subst; split; reflexivity].
    destruct (temporary_copy T N n s); cbn in Hfin; [|discriminate].
    inversion Hfin; subst; split; reflexivity.
  - unfold read_all, read_n in Hfin.
    destruct (available s <=? available s);
      [| cbn in Hfin; inversion Hfin; subst; split; reflexivity].
    destruct (read_loop T dflt N (Z.to_nat (available s))
                (wrap (available s - available s)) s [])
      as [[r s1]|] eqn:E; cbn in Hfin; [|discriminate].
    inversion Hfin; subst. eapply read_loop_frame; eassumption.
  - unfold safe_read_all, safe_read in Hfin.
    destruct (available s <=? available s);
      [| cbn in Hfin; inversion Hfin; subst; split; reflexivity].
    destruct (temporary_copy T N (available s) s);
      cbn in Hfin; [|discriminate].
    inversion Hfin; subst; split; reflexivity.
  - unfold erase in Hfin.
    destruct (erase_loop T N (Z.to_nat (Z.min n (available s)))
                (Z.min n (available s)) s) as [s1|] eqn:E;
      cbn in Hfin; [|discriminate].
    inversion Hfin; subst. eapply erase_loop_frame; eassumption.
  - unfold clear, erase in Hfin.
    destruct (erase_loop T N
                (Z.to_nat (Z.min (available s) (available s)))
                (Z.min (available s) (available s)) s) as [s1|] eqn:E;
      cbn in Hfin; [|discriminate].
    inversion Hfin; subst. eapply erase_loop_frame; eassumption.
Qed.
End FrameFacts.

(** ** Filling a buffer *)

Section FillFacts.
Variable T : Type.
Variable dflt : T.
Variable N : Z.
Hypothesis N_pos : 0 < N.
Hypothesis N_size_t : N < size_t_range.

Import ringbuffer.

Lemma run_with_app {S : Type} (exec : op T -> S -> outcome S (value T))
      (ops1 : list (op T)) :
  forall (ops2 : list (op T)) (s s1 : S) (ev1 : list (event T)),
    run_with exec ops1 s = Returns ev1 s1 ->
    run_with exec (ops1 ++ ops2) s =
      map_outcome (app ev1) (run_with exec ops2 s1).
Proof.
  induction ops1 as [|o ops1 IH]; intros ops2 s s1 ev1 H.
  - cbn in H. inversion H; subst. cbn [app run_with].
    destruct (run_with exec ops2 s1); reflexivity.
  - cbn [app run_with] in *.
    destruct (exec o s) as [v s'|w s'| |]; try discriminate.
    + destruct (run_with exec ops1 s') as [ev s2|? ?| |] eqn:E;
        try discriminate.
      cbn in H. inversion H; subst.
      rewrite (IH ops2 s' s1 ev E).
      destruct (run_with exec ops2 s1); reflexivity.
    + destruct (run_with exec ops1 s') as [ev s2|? ?| |] eqn:E;
        try discriminate.
      cbn in H. inversion H; subst.
      rewrite (IH ops2 s' s1 ev E).
      destruct (run_with exec ops2 s1); reflexivity.
Qed.

(** Emplacing the elements of [l] behind the elements [pre] already
    stored from the first slot on. *)
Lemma emplace_many (l : list T) :
  forall pre fill : list T,
    Z.of_nat (List.length pre) + Z.of_nat (List.length l) <= N ->
    Z.of_nat (List.length pre) + Z.of_nat (List.length fill) = N ->
    run T dflt N (map Emplace l)
        (mk (pre ++ fill) (Z.of_nat (List.length pre) mod N) 0
            (Z.of_nat (List.length pre))) =
      Returns (map (fun _ => Ret VUnit) l)
              (mk (pre ++ l ++ skipn (List.length l) fill)
                  ((Z.of_nat (List.length pre)
                    + Z.of_nat (List.length l)) mod N)
                  0
                  (Z.of_nat (List.length pre)
                   + Z.of_nat (List.length l))).
Proof.
  unfold run.
  induction l as [|x l IH]; intros pre fill Hroom Hfill.
  - cbn. now rewrite !Z.add_0_r.
  - cbn [List.length map run_with exec] in *.
    destruct fill as [|y fill]; cbn [List.length] in Hfill; [lia|].
    unfold emplace. cbn [buff writepos readpos available].
    destruct (Z.ltb_spec (Z.of_nat (List.length pre)) N); [|lia].
    cbn [map_outcome].
    rewrite (Z.mod_small (Z.of_nat (List.length pre)) N) by lia.
    unfold store. rewrite Nat2Z.id, upd_app.
    rewrite wrapfront_mod by lia.
    rewrite wrap_small by lia.
    replace (pre ++ x :: fill) with ((pre ++ [x]) ++ fill)
      by (rewrite <- app_assoc; reflexivity).
    replace (Z.of_nat (List.length pre) + 1)
      with (Z.of_nat (List.length (pre ++ [x])))
      by (rewrite length_app; cbn [List.length]; lia).
    rewrite IH.
    + cbn [map_outcome skipn]. rewrite <- app_assoc. cbn [app].
      rewrite length_app. cbn [List.length].
      do 2 f_equal; [f_equal|]; lia.
    + rewrite length_app. cbn [List.length]. lia.
    + rewrite length_app. cbn [List.length]. lia.
Qed.

(** A fresh buffer filled with [N] elements holds them from the first
    slot on, with both cursors on the first slot. *)
Lemma fill_fresh (l : list T) :
  Z.of_nat (List.length l) = N ->
  run T dflt N (map Emplace l) (init T dflt N) =
    Returns (map (fun _ => Ret VUnit) l) (mk l 0 0 N).
Proof.
  intros Hlen.
  pose proof (emplace_many l [] (repeat dflt (Z.to_nat N))) as H.
  cbn [List.length app] in H. change (Z.of_nat 0) with 0 in H.
  rewrite Z.mod_0_l in H by lia.
  unfold init, first. rewrite H.
  - rewrite skipn_all2 by (rewrite repeat_length; lia).
    rewrite app_nil_r, Z.add_0_l, Hlen, Z.mod_same by lia.
    reflexivity.
  - lia.
  - rewrite repeat_length. lia.
Qed.
End FillFacts.

(** * The claims *)

(** C1.  The claim: a successful [read (n)] with [n <= size ()] returns the
    [n] oldest elements, advances the read cursor by [n] and leaves
    [size ()] at the old size minus [n].  On the code the last part fails:
    [while (available-- > cap)] decrements once more when its test fails.
    With capacity 4 and three elements [a], [b], [c] stored, [read (2)]
    returns [a; b] and moves the read cursor to slot 2, but [size ()] is
    then [0] instead of [1]; [read (0)] on the fresh buffer leaves
    [size ()] at [2^64 - 1].  The concurrent variant does the same. *)
Theorem C1_read_n_count_one_short :
  forall (T : Type) (dflt a b c : T),
    ringbuffer.run T dflt 4
      [Emplace a; Emplace b; Emplace c; Size; ReadN 2; Size]
      (ringbuffer.init T dflt 4) =
      Returns [Ret VUnit; Ret VUnit; Ret VUnit; Ret (VNum 3);
               Ret (VSeq [a; b]); Ret (VNum 0)]
              (ringbuffer.mk [a; b; c; dflt] 3 2 0)
    /\ ringbuffer.run T dflt 4 [ReadN 0; Size] (ringbuffer.init T dflt 4) =
         Returns [Ret (VSeq []); Ret (VNum (size_t_range - 1))]
                 (ringbuffer.mk [dflt; dflt; dflt; dflt] 0 0
                                (size_t_range - 1))
    /\ datum.run T dflt 4
         [Emplace a; Emplace b; Emplace c; Size; ReadN 2; Size]
         (datum.init T dflt 4) =
         Returns [Ret VUnit; Ret VUnit; Ret VUnit; Ret (VNum 3);
                  Ret (VSeq [a; b]); Ret (VNum 0)]
                 (at_rest (ringbuffer.mk [a; b; c; dflt] 3 2 0)).
Proof.
  intros T dflt a b c. repeat split; vm_compute; reflexivity.
Qed.

(** C2.  The claim: after every call that completes, from a fresh buffer
    on, the count is within [0 .. capacity] and the write cursor is the read
    cursor advanced by the count.  On the code [read (n)] breaks both
    parts: after [read (0)] on the fresh buffer of capacity 4 the count is
    [2^64 - 1]; after three insertions and [read (2)] the count is [0] while
    the read cursor is on slot 2 and the write cursor on slot 3. *)
Theorem C2_read_n_breaks_invariant :
  forall (T : Type) (dflt a b c : T),
    (exists s : ringbuffer.ringbuffer T,
        final_state (ringbuffer.run T dflt 4 [ReadN 0]
                       (ringbuffer.init T dflt 4)) = Some s
        /\ reachable T dflt 4 s
        /\ ringbuffer.available s = size_t_range - 1
        /\ ~ invariant 4 s)
    /\ (exists s : ringbuffer.ringbuffer T,
           final_state (ringbuffer.run T dflt 4
                          [Emplace a; Emplace b; Emplace c; ReadN 2]
                          (ringbuffer.init T dflt 4)) = Some s
           /\ reachable T dflt 4 s
           /\ ringbuffer.available s = 0
           /\ ringbuffer.readpos s = 2
           /\ ringbuffer.writepos s = 3
           /\ ~ invariant 4 s).
Proof.
  intros T dflt a b c. split.
  - exists (ringbuffer.mk [dflt; dflt; dflt; dflt] 0 0 (size_t_range - 1)).
    repeat split.
    + apply (reach_step T dflt 4 _ (ReadN 0) (ringbuffer.init T dflt 4));
        [apply reach_init | reflexivity | cbn; unfold size_t_range; lia
        | reflexivity].
    + intros [[_ H] _]. cbn in H. unfold size_t_range in H. lia.
  - exists (ringbuffer.mk [a; b; c; dflt] 3 2 0).
    repeat split.
    + apply (reach_step T dflt 4 _ (ReadN 2)
               (ringbuffer.mk [a; b; c; dflt] 3 0 3));
        [| reflexivity | cbn; unfold size_t_range; lia | reflexivity].
      apply (reach_step T dflt 4 _ (Emplace c)
               (ringbuffer.mk [a; b; dflt; dflt] 2 0 2));
        [| reflexivity | exact I | reflexivity].
      apply (reach_step T dflt 4 _ (Emplace b)
               (ringbuffer.mk [a; dflt; dflt; dflt] 1 0 1));
        [| reflexivity | exact I | reflexivity].
      apply (reach_step T dflt 4 _ (Emplace a) (ringbuffer.init T dflt 4));
        [apply reach_init | reflexivity | exact I | reflexivity].
    + intros [_ H]. vm_compute in H. discriminate H.
Qed.

(** C3.  The claim: [safe_read (n)] returns the same [n] elements, oldest
    first, as [read (n)], its copy being the segment from the read cursor to
    the last slot followed by the remaining elements from the first slot.
    On the code [temporary_copy] takes its second branch as soon as the span
    reaches the last slot, copies [n - m + 1] elements from the first slot
    instead of [n - (m + 1)], and inserts that segment in front of the first
    one.  Capacity 4: with [e2; e3; e4; e5] live from slot 2 on,
    [safe_read (3)] returns [e4; e5; e2; e2; e3] where [read (3)] returns
    [e2; e3; e4]; on a full buffer that does not wrap, [safe_read (4)]
    returns six elements; with the read cursor on the last slot of a full
    buffer, [safe_read (4)] moves an iterator past the end of storage. *)
Theorem C3_safe_read_copy_is_wrong :
  forall (T : Type) (dflt e0 e1 e2 e3 e4 e5 e6 : T),
    ringbuffer.run T dflt 4
      [Emplace e0; Emplace e1; Emplace e2; Emplace e3; Pop; Pop;
       Emplace e4; Emplace e5; SafeRead 3]
      (ringbuffer.init T dflt 4) =
      Returns [Ret VUnit; Ret VUnit; Ret VUnit; Ret VUnit; Ret VUnit;
               Ret VUnit; Ret VUnit; Ret VUnit;
               Ret (VSeq [e4; e5; e2; e2; e3])]
              (ringbuffer.mk [e4; e5; e2; e3] 2 1 1)
    /\ ringbuffer.read_n T dflt 4 3 (ringbuffer.mk [e4; e5; e2; e3] 2 2 4) =
         Returns [e2; e3; e4] (ringbuffer.mk [e4; e5; e2; e3] 2 1 0)
    /\ ringbuffer.run T dflt 4
         [Emplace e0; Emplace e1; Emplace e2; Emplace e3; SafeRead 4]
         (ringbuffer.init T dflt 4) =
         Returns [Ret VUnit; Ret VUnit; Ret VUnit; Ret VUnit;
                  Ret (VSeq [e0; e1; e0; e1; e2; e3])]
                 (ringbuffer.mk [e0; e1; e2; e3] 0 0 0)
    /\ ringbuffer.run T dflt 4
         [Emplace e0; Emplace e1; Emplace e2; Emplace e3; Pop; Pop; Pop;
          Emplace e4; Emplace e5; Emplace e6; SafeRead 4]
         (ringbuffer.init T dflt 4) = Undefined.
Proof.
  intros. repeat split; vm_compute; reflexivity.
Qed.

(** C4, as stated, fails: the messages do not tell [read (n)] from
    [safe_read (n)].  On the fresh buffer of capacity 4 both calls with
    [n = 1] throw, and it is not the case that their messages differ. *)
Lemma C4_bulk_messages_coincide :
  ~ (forall w1 w2 : string,
        ringbuffer.exec Z 0 4 (ReadN 1) (ringbuffer.init Z 0 4) =
          Throws w1 (ringbuffer.init Z 0 4) ->
        ringbuffer.exec Z 0 4 (SafeRead 1) (ringbuffer.init Z 0 4) =
          Throws w2 (ringbuffer.init Z 0 4) ->
        w1 <> w2).
Proof.
  intros H. apply (H msg_bulk msg_bulk); reflexivity.
Qed.

(** C4, amended.  [front] and [read] on a buffer whose count is zero, and
    [read (n)] and [safe_read (n)] with [n] above the count, throw
    [std::out_of_range] and leave the object as it was.  The message tells
    [front], the single [read] and the bulk reads apart; [read (n)] and
    [safe_read (n)] carry one and the same message. *)
Theorem C4_failed_reads_throw_and_keep_state :
  forall (T : Type) (dflt : T) (N n : Z) (s : ringbuffer.ringbuffer T),
    (ringbuffer.size T s = 0 ->
       ringbuffer.front T dflt s = Throws msg_front s
       /\ ringbuffer.read T dflt N s = Throws msg_read s)
    /\ (ringbuffer.size T s < n ->
          ringbuffer.read_n T dflt N n s = Throws msg_bulk s
          /\ ringbuffer.safe_read T N n s = Throws msg_bulk s)
    /\ msg_front <> msg_read
    /\ msg_front <> msg_bulk
    /\ msg_read <> msg_bulk.
Proof.
  intros T dflt N n s. unfold ringbuffer.size. repeat split.
  - unfold ringbuffer.front. rewrite H. reflexivity.
  - unfold ringbuffer.read. rewrite H. reflexivity.
  - unfold ringbuffer.read_n.
    destruct (Z.leb_spec n (ringbuffer.available s)); [lia | reflexivity].
  - unfold ringbuffer.safe_read.
    destruct (Z.leb_spec n (ringbuffer.available s)); [lia | reflexivity].
  - discriminate.
  - discriminate.
  - discriminate.
Qed.

Lemma C4_failed_reads_witness :
  ringbuffer.size Z (ringbuffer.mk [7; 0; 0; 0] 1 0 1) < 2
  /\ ringbuffer.read_n Z 0 4 2 (ringbuffer.mk [7; 0; 0; 0] 1 0 1) =
       Throws msg_bulk (ringbuffer.mk [7; 0; 0; 0] 1 0 1)
  /\ ringbuffer.size Z (ringbuffer.init Z 0 4) = 0
  /\ ringbuffer.front Z 0 (ringbuffer.init Z 0 4) =
       Throws msg_front (ringbuffer.init Z 0 4).
Proof.
  pose proof (C4_failed_reads_throw_and_keep_state
                Z 0 4 2 (ringbuffer.mk [7; 0; 0; 0] 1 0 1)) as (_ & Hb & _).
  pose proof (C4_failed_reads_throw_and_keep_state
                Z 0 4 2 (ringbuffer.init Z 0 4)) as (He & _).
  assert (H1 : ringbuffer.size Z (ringbuffer.mk [7; 0; 0; 0] 1 0 1) < 2)
    by (cbn; lia).
  assert (H0 : ringbuffer.size Z (ringbuffer.init Z 0 4) = 0)
    by reflexivity.
  split; [exact H1|]. split; [exact (proj1 (Hb H1))|].
  split; [exact H0|]. exact (proj1 (He H0)).
Defined.

(** C5.  [emplace] on a buffer whose count is below the capacity
    constructs the element in the slot under the write cursor (no other slot
    changes), advances the write cursor by one slot with [wrapfront] and
    adds one to the count, the read cursor staying where it is; on a buffer
    whose count has reached the capacity it returns normally and changes
    nothing.  The concurrent variant at rest does the same and is at rest
    again afterwards. *)
Theorem C5_emplace :
  forall (T : Type) (dflt : T) (N : Z) (x : T) (s : ringbuffer.ringbuffer T),
    0 < N < size_t_range ->
    well_formed N s ->
    (ringbuffer.available s < N ->
       ringbuffer.emplace T N x s =
         Returns tt
                 (ringbuffer.mk
                    (store (ringbuffer.buff s) (ringbuffer.writepos s) x)
                    (ringbuffer.wrapfront N (ringbuffer.writepos s) 1)
                    (ringbuffer.readpos s)
                    (ringbuffer.available s + 1))
       /\ ringbuffer.wrapfront N (ringbuffer.writepos s) 1 =
            (ringbuffer.writepos s + 1) mod N
       /\ deref dflt (store (ringbuffer.buff s) (ringbuffer.writepos s) x)
                (ringbuffer.writepos s) = x
       /\ (forall p : Z,
              0 <= p -> p <> ringbuffer.writepos s ->
              deref dflt
                    (store (ringbuffer.buff s) (ringbuffer.writepos s) x) p =
                deref dflt (ringbuffer.buff s) p))
    /\ (N <= ringbuffer.available s ->
          ringbuffer.emplace T N x s = Returns tt s)
    /\ datum.emplace T N x (at_rest s) = lift (ringbuffer.emplace T N x s).
Proof.
  intros T dflt N x s [HN0 HN1] (Hlen & Hw & Hr & Ha).
  split; [|split].
  - intros Hroom. unfold ringbuffer.emplace.
    destruct (Z.ltb_spec (ringbuffer.available s) N); [|lia].
    rewrite wrap_small by lia. repeat split.
    + apply wrapfront_mod; lia.
    + unfold deref, store. apply upd_nth_same. lia.
    + intros p Hp Hne. unfold deref, store. apply upd_nth_other. lia.
  - intros Hfull. unfold ringbuffer.emplace.
    destruct (Z.ltb_spec (ringbuffer.available s) N); [lia | reflexivity].
  - unfold datum.emplace, ringbuffer.emplace, datum.writer. cbn.
    destruct (ringbuffer.available s <? N); reflexivity.
Qed.

Lemma C5_emplace_witness :
  ringbuffer.emplace Z 4 9 (ringbuffer.mk [5; 6; 7; 0] 3 0 3) =
    Returns tt (ringbuffer.mk [5; 6; 7; 9] 0 0 4)
  /\ ringbuffer.emplace Z 4 9 (ringbuffer.mk [5; 6; 7; 8] 0 0 4) =
       Returns tt (ringbuffer.mk [5; 6; 7; 8] 0 0 4).
Proof.
  assert (HN : 0 < 4 < size_t_range) by (unfold size_t_range; lia).
  split.
  - assert (Hwf : well_formed 4 (ringbuffer.mk [5; 6; 7; 0] 3 0 3))
      by (unfold well_formed, size_t_range; cbn; repeat split; lia).
    destruct (C5_emplace Z 0 4 9 _ HN Hwf) as (Hroom & _ & _).
    destruct Hroom as (Heq & _); [cbn; lia|]. exact Heq.
  - assert (Hwf : well_formed 4 (ringbuffer.mk [5; 6; 7; 8] 0 0 4))
      by (unfold well_formed, size_t_range; cbn; repeat split; lia).
    destruct (C5_emplace Z 0 4 9 _ HN Hwf) as (_ & Hfull & _).
    apply Hfull. cbn. lia.
Defined.

(** C6.  For a cursor [p] inside storage and an amount [n], [wrapfront]
    replaces [n] by [n % N] when [n > N]; with the amount [n'] so obtained
    it returns [first + (n' - 1 - (last - p))] when [p + n'] lies beyond
    [last] and [p + n'] otherwise, the [size_t] subtraction never wrapping
    around.  The result is the slot [(p + n) mod N]; advancing by [0] and
    advancing by [N] both return [p].  The two variants share the
    function. *)
Theorem C6_wrapfront :
  forall N p n : Z,
    0 < N < size_t_range ->
    0 <= p < N ->
    0 <= n < size_t_range ->
    let n' := if n >? N then n mod N else n in
    ringbuffer.wrapfront N p n =
      (if p + n' >? ringbuffer.last N
       then ringbuffer.first + (n' - 1 - (ringbuffer.last N - p))
       else p + n')
    /\ ringbuffer.wrapfront N p n = (p + n) mod N
    /\ ringbuffer.wrapfront N p 0 = p
    /\ ringbuffer.wrapfront N p N = p
    /\ datum.wrapfront N p n = ringbuffer.wrapfront N p n.
Proof.
  intros N p n [HN0 HN1] Hp Hn n'. repeat split.
  - apply (wrapfront_formula N HN0 HN1); lia.
  - apply wrapfront_mod; lia.
  - apply wrapfront_zero; lia.
  - apply wrapfront_full; lia.
Qed.

Lemma C6_wrapfront_witness :
  ringbuffer.wrapfront 4 2 7 = (2 + 7) mod 4
  /\ ringbuffer.wrapfront 4 3 0 = 3
  /\ ringbuffer.wrapfront 4 3 4 = 3.
Proof.
  assert (HN : 0 < 4 < size_t_range) by (unfold size_t_range; lia).
  assert (Hn : 0 <= 7 < size_t_range) by (unfold size_t_range; lia).
  split; [|split].
  - apply (C6_wrapfront 4 2 7 HN); [lia | exact Hn].
  - apply (C6_wrapfront 4 3 7 HN); [lia | exact Hn].
  - apply (C6_wrapfront 4 3 7 HN); [lia | exact Hn].
Defined.

(** C7.  FIFO round trip.  On a fresh buffer of capacity [N], inserting the
    [N] elements of [l] one after the other and calling [read_all ()]
    returns exactly [l].  With capacity 4: after inserting [e0 .. e3],
    removing two elements ([pop] twice, or [erase (2)]) and inserting [e4]
    and [e5], [read_all ()] returns [e2; e3; e4; e5] although storage holds
    [e4; e5; e2; e3]. *)
Theorem C7_fifo_round_trip :
  forall (T : Type) (dflt : T) (N : Z) (l : list T)
         (e0 e1 e2 e3 e4 e5 : T),
    0 < N < size_t_range ->
    Z.of_nat (List.length l) = N ->
    (exists s' : ringbuffer.ringbuffer T,
        ringbuffer.run T dflt N (map Emplace l ++ [ReadAll])
                       (ringbuffer.init T dflt N) =
          Returns (map (fun _ => Ret VUnit) l ++ [Ret (VSeq l)]) s')
    /\ (exists s' : ringbuffer.ringbuffer T,
           ringbuffer.run T dflt 4
             [Emplace e0; Emplace e1; Emplace e2; Emplace e3; Pop; Pop;
              Emplace e4; Emplace e5; ReadAll]
             (ringbuffer.init T dflt 4) =
             Returns [Ret VUnit; Ret VUnit; Ret VUnit; Ret VUnit;
                      Ret VUnit; Ret VUnit; Ret VUnit; Ret VUnit;
                      Ret (VSeq [e2; e3; e4; e5])] s'
           /\ ringbuffer.buff s' = [e4; e5; e2; e3])
    /\ (exists s' : ringbuffer.ringbuffer T,
           ringbuffer.run T dflt 4
             [Emplace e0; Emplace e1; Emplace e2; Emplace e3; Erase 2;
              Emplace e4; Emplace e5; ReadAll]
             (ringbuffer.init T dflt 4) =
             Returns [Ret VUnit; Ret VUnit; Ret VUnit; Ret VUnit;
                      Ret VUnit; Ret VUnit; Ret VUnit;
                      Ret (VSeq [e2; e3; e4; e5])] s'
           /\ ringbuffer.buff s' = [e4; e5; e2; e3]).
Proof.
  intros T dflt N l e0 e1 e2 e3 e4 e5 [HN0 HN1] Hlen.
  split; [|split].
  - eexists. unfold ringbuffer.run.
    rewrite (run_with_app T (ringbuffer.exec T dflt N) (map Emplace l)
               [ReadAll] _ _ _ (fill_fresh T dflt N HN0 HN1 l Hlen)).
    cbn [run_with ringbuffer.exec]. unfold ringbuffer.read_all.
    rewrite read_n_returns; try assumption.
    + cbn [map_outcome ringbuffer.available]. unfold oldest.
      cbn [ringbuffer.buff ringbuffer.readpos].
      rewrite walk_all by lia. reflexivity.
    + unfold well_formed.
      cbn [ringbuffer.buff ringbuffer.writepos ringbuffer.readpos
           ringbuffer.available].
      repeat split; lia.
    + cbn [ringbuffer.available]. lia.
  - eexists. split; vm_compute; reflexivity.
  - eexists. split; vm_compute; reflexivity.
Qed.

Lemma C7_fifo_round_trip_witness :
  exists s' : ringbuffer.ringbuffer Z,
    ringbuffer.run Z 0 3 (map Emplace [10; 20; 30] ++ [ReadAll])
                   (ringbuffer.init Z 0 3) =
      Returns (map (fun _ => Ret VUnit) [10; 20; 30]
               ++ [Ret (VSeq [10; 20; 30])]) s'.
Proof.
  assert (HN : 0 < 3 < size_t_range) by (unfold size_t_range; lia).
  assert (Hlen : Z.of_nat (List.length [10; 20; 30]) = 3) by reflexivity.
  exact (proj1 (C7_fifo_round_trip Z 0 3 [10; 20; 30] 0 0 0 0 0 0 HN Hlen)).
Defined.

(** C8.  The claim: in the concurrent variant every mutating call holds
    exclusive access for its whole duration, and [safe_read (n)] completes
    although its copy step takes shared access on the same lock.  On the
    code [safe_read (n)] with [n <= size ()] never returns: the writer
    entity holds [mut], and [read_lock], called from [temporary_copy],
    waits for [mut]. *)
Theorem C8_safe_read_never_returns :
  forall (T : Type) (N n : Z) (s : datum.ringbuffer T),
    quiescent s ->
    n <= datum.size T s ->
    datum.write_lock (datum.rwlock s) = Some (datum.mk_mutex true 0)
    /\ datum.read_lock (datum.mk_mutex true 0) = None
    /\ datum.safe_read T N n s = Hangs
    /\ datum.safe_read_all T N s = Hangs.
Proof.
  intros T N n s Hq Hn. unfold quiescent in Hq. repeat split.
  - rewrite Hq. reflexivity.
  - apply datum_safe_read_hangs. exact Hn.
  - apply datum_safe_read_hangs. lia.
Qed.

Lemma C8_safe_read_never_returns_witness :
  datum.safe_read Z 4 0 (datum.init Z 0 4) = Hangs
  /\ datum.safe_read_all Z 4 (datum.init Z 0 4) = Hangs.
Proof.
  assert (Hq : quiescent (datum.init Z 0 4)) by reflexivity.
  assert (Hn : 0 <= datum.size Z (datum.init Z 0 4)) by (cbn; lia).
  destruct (C8_safe_read_never_returns Z 4 0 _ Hq Hn) as (_ & _ & H1 & H2).
  split; [exact H1 | exact H2].
Defined.

(** C9.  The claim: for a single caller the two variants return the same
    values, fail alike and end in the same abstract state.  On the code
    they part on [safe_read]: with capacity 4, [safe_read (0)] on the fresh
    single-threaded buffer returns the empty sequence, and after one
    insertion [safe_read_all ()] returns the element; the same calls on the
    concurrent buffer never return. *)
Theorem C9_variants_part_on_safe_read :
  forall (T : Type) (dflt a : T),
    ringbuffer.run T dflt 4 [SafeRead 0] (ringbuffer.init T dflt 4) =
      Returns [Ret (VSeq [])] (ringbuffer.init T dflt 4)
    /\ datum.run T dflt 4 [SafeRead 0] (datum.init T dflt 4) = Hangs
    /\ ringbuffer.run T dflt 4 [Emplace a; SafeReadAll]
                      (ringbuffer.init T dflt 4) =
         Returns [Ret VUnit; Ret (VSeq [a])]
                 (ringbuffer.mk [a; dflt; dflt; dflt] 1 1 0)
    /\ datum.run T dflt 4 [Emplace a; SafeReadAll] (datum.init T dflt 4) =
         Hangs.
Proof.
  intros T dflt a. repeat split; vm_compute; reflexivity.
Qed.

(** C10.  Cursor framing.  A consuming call ([pop], [read], [read (n)],
    [safe_read (n)], the two [_all] forms, [erase (n)], [clear]) leaves the
    write cursor where it was; [emplace] leaves the read cursor where it
    was; [size ()] and [capacity ()] leave the whole object as it was.  On
    an object with [N] slots and cursors inside them every call comes to an
    end, so the statement is not about calls that never return. *)
Theorem C10_cursor_framing :
  forall (T : Type) (dflt : T) (N : Z) (o : op T)
         (s s' : ringbuffer.ringbuffer T),
    final_state (ringbuffer.exec T dflt N o s) = Some s' ->
    (consuming o = true -> ringbuffer.writepos s' = ringbuffer.writepos s)
    /\ (forall x : T, o = Emplace x ->
                      ringbuffer.readpos s' = ringbuffer.readpos s)
    /\ (o = Size \/ o = Capacity -> s' = s)
    /\ (0 < N < size_t_range -> well_formed N s -> op_ok o ->
        ringbuffer.exec T dflt N o s <> Hangs).
Proof.
  intros T dflt N o s s' Hfin. split; [|split; [|split]].
  - intros Hc. eapply consuming_frame; eassumption.
  - intros x ->. cbn [ringbuffer.exec] in Hfin.
    unfold ringbuffer.emplace in Hfin.
    destruct (ringbuffer.available s <? N); cbn in Hfin;
      inversion Hfin; subst; reflexivity.
  - intros [-> | ->]; cbn in Hfin; inversion Hfin; reflexivity.
  - intros [HN0 HN1] Hwf Hok. apply exec_never_hangs; assumption.
Qed.

Lemma C10_cursor_framing_witness :
  ringbuffer.writepos (ringbuffer.mk [5; 6; 7; 0] 3 2 0) =
    ringbuffer.writepos (ringbuffer.mk [5; 6; 7; 0] 3 0 3).
Proof.
  assert (Hfin : final_state
                   (ringbuffer.exec Z 0 4 (ReadN 2)
                      (ringbuffer.mk [5; 6; 7; 0] 3 0 3)) =
                 Some (ringbuffer.mk [5; 6; 7; 0] 3 2 0))
    by reflexivity.
  apply (C10_cursor_framing Z 0 4 (ReadN 2) _ _ Hfin). reflexivity.
Defined.

(** * Further properties of the code *)

(** ** Walking storage *)

Section WalkFacts.
Variable T : Type.
Variable dflt : T.
Variable N : Z.
Hypothesis N_pos : 0 < N.

Lemma walk_snoc (b : list T) (p : Z) (k : nat) :
  walk dflt N b p (S k) =
    walk dflt N b p k ++ [deref dflt b ((p + Z.of_nat k) mod N)].
Proof.
  unfold walk. rewrite seq_S, map_app. reflexivity.
Qed.

Lemma walk_firstn (b : list T) (p : Z) (j k : nat) :
  (j <= k)%nat ->
  walk dflt N b p j = firstn j (walk dflt N b p k).
Proof.
  intros Hjk. unfold walk.
  replace k with (j + (k - j))%nat by lia.
  rewrite seq_app, map_app, firstn_app, length_map, length_seq.
  rewrite Nat.sub_diag, firstn_O, app_nil_r.
  rewrite firstn_all2 by (rewrite length_map, length_seq; lia).
  reflexivity.
Qed.

Lemma walk_skipn (b : list T) (j : nat) :
  forall (p : Z) (k : nat),
    0 <= p < N -> (j <= k)%nat ->
    walk dflt N b ((p + Z.of_nat j) mod N) (k - j) =
      skipn j (walk dflt N b p k).
Proof.
  induction j as [|j IH]; intros p k Hp Hjk.
  - change (Z.of_nat 0) with 0. rewrite Z.add_0_r, Z.mod_small by lia.
    now rewrite Nat.sub_0_r.
  - destruct k as [|k]; [lia|].
    rewrite walk_cons by assumption. cbn [skipn Nat.sub].
    rewrite <- IH.
    + rewrite Z.add_mod_idemp_l by lia. do 2 f_equal. lia.
    + apply Z.mod_pos_bound. lia.
    + lia.
Qed.

(** Two slots less than [N] steps apart are different slots. *)
Lemma slots_apart (p i a : Z) :
  0 <= i < a -> a < i + N -> (p + i) mod N <> (p + a) mod N.
Proof.
  intros Hi Ha Heq.
  pose proof (Z.div_mod (p + i) N ltac:(lia)) as H1.
  pose proof (Z.div_mod (p + a) N ltac:(lia)) as H2.
  rewrite Heq in H1.
  set (d := (p + a) / N - (p + i) / N).
  assert (H : a - i = N * d) by (unfold d; lia).
  assert (Hd : 0 < d) by nia.
  assert (HNd : N <= N * d) by nia.
  lia.
Qed.

Lemma deref_store_same (b : list T) (w : Z) (x : T) :
  0 <= w < Z.of_nat (List.length b) ->
  deref dflt (store b w x) w = x.
Proof.
  intros Hw. unfold deref, store. apply upd_nth_same. lia.
Qed.

Lemma deref_store_other (b : list T) (w q : Z) (x : T) :
  0 <= w -> 0 <= q -> q <> w ->
  deref dflt (store b w x) q = deref dflt b q.
Proof.
  intros Hw Hq Hne. unfold deref, store. apply upd_nth_other. lia.
Qed.

(** Storing into a slot the walk does not visit leaves the walk as it
    was. *)
Lemma walk_store_other (b : list T) (w p : Z) (x : T) (k : nat) :
  0 <= w ->
  (forall i : nat, (i < k)%nat -> (p + Z.of_nat i) mod N <> w) ->
  walk dflt N (store b w x) p k = walk dflt N b p k.
Proof.
  intros Hw Hfree. unfold walk. apply map_ext_in.
  intros i Hi. apply in_seq in Hi.
  apply deref_store_other; try assumption.
  - apply Z.mod_pos_bound. lia.
  - apply Hfree. lia.
Qed.
End WalkFacts.

(** ** The buffer as a queue *)

Section QueueFacts.
Variable T : Type.
Variable dflt : T.
Variable N : Z.
Hypothesis N_pos : 0 < N.
Hypothesis N_size_t : N < size_t_range.

Import ringbuffer.

Lemma contents_length (s : ringbuffer T) :
  List.length (contents dflt N s) = Z.to_nat (available s).
Proof. apply walk_length. Qed.

Lemma contents_init : contents dflt N (init T dflt N) = [].
Proof. reflexivity. Qed.

(** Constructing an element under the write cursor appends it to the live
    elements. *)
Lemma contents_emplace (x : T) (s : ringbuffer T) :
  well_formed N s -> invariant N s -> available s < N ->
  contents dflt N
    (mk (store (buff s) (writepos s) x) (wrapfront N (writepos s) 1)
        (readpos s) (available s + 1)) =
    contents dflt N s ++ [x].
Proof.
  intros (Hlen & Hw & Hr & Ha) (Hcnt & Hcur) Hroom.
  unfold contents, oldest. cbn [buff readpos available].
  replace (Z.to_nat (available s + 1)) with (S (Z.to_nat (available s)))
    by lia.
  rewrite walk_snoc, Z2Nat.id by lia.
  rewrite wrapfront_mod in Hcur by lia.
  rewrite <- Hcur, deref_store_same by lia.
  rewrite walk_store_other; [reflexivity | lia | lia |].
  intros i Hi. rewrite Hcur. apply slots_apart; lia.
Qed.

(** Advancing the read cursor by [k] drops the [k] oldest elements. *)
Lemma contents_advance (k : Z) (s : ringbuffer T) :
  well_formed N s -> 0 <= k <= available s ->
  contents dflt N
    (mk (buff s) (writepos s) (wrapfront N (readpos s) k)
        (available s - k)) =
    skipn (Z.to_nat k) (contents dflt N s).
Proof.
  intros (Hlen & Hw & Hr & Ha) Hk.
  unfold contents, oldest. cbn [buff readpos available].
  rewrite wrapfront_mod by lia.
  rewrite <- (walk_skipn T dflt N N_pos) by lia.
  rewrite Z2Nat.id by lia. f_equal. lia.
Qed.

Lemma contents_head (s : ringbuffer T) :
  well_formed N s -> 0 < available s ->
  contents dflt N s =
    deref dflt (buff s) (readpos s)
    :: skipn 1 (contents dflt N s).
Proof.
  intros (Hlen & Hw & Hr & Ha) Hne. unfold contents, oldest.
  replace (Z.to_nat (available s)) with (S (Z.to_nat (available s - 1)))
    by lia.
  rewrite walk_cons by lia. reflexivity.
Qed.

Local Ltac open_invariant Hwf Hinv :=
  pose proof Hwf as (Hlen & Hw & Hr & Ha);
  pose proof Hinv as (Hcnt & Hcur).

(** One plain call on the buffer is one step of the queue. *)
Lemma queue_step (o : op T) (s : ringbuffer T) :
  well_formed N s -> invariant N s -> op_ok o -> plain o = true ->
  exists s' : ringbuffer T,
    observe (exec T dflt N o s) =
      Some (fst (queue_exec N o (contents dflt N s)), s')
    /\ contents dflt N s' = snd (queue_exec N o (contents dflt N s))
    /\ well_formed N s' /\ invariant N s'.
Proof.
  intros Hwf Hinv Hok Hplain.
  assert (Hnb : bulk_reads o = false)
    by (unfold plain in Hplain; destruct (bulk_reads o);
        [discriminate | reflexivity]).
  assert (Hkeep : forall s' : ringbuffer T,
             final_state (exec T dflt N o s) = Some s' ->
             well_formed N s' /\ invariant N s').
  { intros s' Hfin. split.
    - eapply exec_well_formed; eassumption.
    - eapply exec_invariant; eassumption. }
  open_invariant Hwf Hinv.
  pose proof (contents_length s) as Hclen.
  destruct o; try discriminate Hplain; cbn [exec queue_exec] in *.
  - (* emplace *)
    rewrite Hclen, Z2Nat.id by lia. unfold emplace in *.
    destruct (Z.ltb_spec (available s) N).
    + rewrite wrap_small in * by lia. eexists.
      split; [reflexivity|]. split; [|apply Hkeep; reflexivity].
      apply contents_emplace; assumption.
    + exists s. split; [reflexivity|]. split; [reflexivity|].
      split; assumption.
  - (* pop *)
    unfold pop in *. destruct (Z.eqb_spec (available s) 0) as [E|E];
      cbn [negb] in *.
    + exists s. split; [reflexivity|]. split; [|split; assumption].
      unfold contents, oldest. rewrite E. reflexivity.
    + rewrite wrap_small in * by lia. eexists.
      split; [reflexivity|]. split; [|apply Hkeep; reflexivity].
      rewrite (contents_advance 1) by (assumption || lia).
      destruct (contents dflt N s); reflexivity.
  - (* front *)
    unfold front in *. destruct (Z.eqb_spec (available s) 0) as [E|E];
      cbn [negb] in *.
    + exists s. replace (contents dflt N s) with (@nil T)
        by (unfold contents, oldest; rewrite E; reflexivity).
      split; [reflexivity|]. split; [reflexivity | split; assumption].
    + pose proof (contents_head s Hwf ltac:(lia)) as Hhd.
      destruct (contents dflt N s) as [|x q] eqn:Eq; [discriminate|].
      injection Hhd as Hx. subst x. exists s. cbn [fst snd].
      split; [reflexivity|]. split; [exact Eq | split; assumption].
  - (* read *)
    unfold read in *. destruct (Z.eqb_spec (available s) 0) as [E|E];
      cbn [negb] in *.
    + exists s. replace (contents dflt N s) with (@nil T)
        by (unfold contents, oldest; rewrite E; reflexivity).
      split; [reflexivity|]. split; [reflexivity | split; assumption].
    + rewrite wrap_small in * by lia.
      pose proof (contents_head s Hwf ltac:(lia)) as Hhd.
      pose proof (contents_advance 1 s Hwf ltac:(lia)) as Hadv.
      destruct (contents dflt N s) as [|x q] eqn:Eq; [discriminate|].
      injection Hhd as Hx. subst x. eexists. cbn [fst snd].
      split; [reflexivity|]. split; [|apply Hkeep; reflexivity].
      exact Hadv.
  - (* erase *)
    cbn [op_ok] in Hok.
    rewrite erase_returns in * by (assumption || lia). eexists.
    split; [reflexivity|]. split; [|apply Hkeep; reflexivity].
    rewrite contents_advance by (assumption || lia).
    destruct (Z.le_ge_cases n (available s)).
    + rewrite Z.min_l by lia. reflexivity.
    + rewrite Z.min_r by lia.
      rewrite !skipn_all2 by (rewrite Hclen; lia). reflexivity.
  - (* clear *)
    unfold clear in *.
    rewrite erase_returns in * by (assumption || lia). eexists.
    split; [reflexivity|]. split; [|apply Hkeep; reflexivity].
    rewrite contents_advance by (assumption || lia).
    rewrite Z.min_id. apply skipn_all2. rewrite Hclen. lia.
  - (* size *)
    exists s. rewrite Hclen, Z2Nat.id by lia.
    split; [reflexivity|]. split; [reflexivity | split; assumption].
  - (* capacity *)
    exists s. rewrite Hclen, Z2Nat.id by lia. unfold capacity.
    rewrite wrap_small by lia.
    split; [reflexivity|]. split; [reflexivity | split; assumption].
Qed.

(** A run of plain calls is a run of the queue. *)
Lemma queue_run_from (ops : list (op T)) :
  forall s : ringbuffer T,
    well_formed N s -> invariant N s ->
    Forall op_ok ops -> forallb plain ops = true ->
    exists s' : ringbuffer T,
      run T dflt N ops s =
        Returns (fst (queue_run N ops (contents dflt N s))) s'
      /\ contents dflt N s' = snd (queue_run N ops (contents dflt N s))
      /\ well_formed N s' /\ invariant N s'.
Proof.
  unfold run.
  induction ops as [|o ops IH]; intros s Hwf Hinv Hok Hplain.
  - exists s. cbn [run_with queue_run fst snd].
    split; [reflexivity|]. split; [reflexivity | split; assumption].
  - inversion Hok as [|? ? Hok1 Hok2]; subst.
    cbn [forallb] in Hplain. apply andb_prop in Hplain as [Hp1 Hp2].
    destruct (queue_step o s Hwf Hinv Hok1 Hp1)
      as (s1 & Hobs & Hcont & Hwf1 & Hinv1).
    destruct (IH s1 Hwf1 Hinv1 Hok2 Hp2)
      as (s2 & Hrun & Hcont2 & Hwf2 & Hinv2).
    exists s2. cbn [run_with queue_run].
    destruct (queue_exec N o (contents dflt N s)) as [r q1].
    cbn [fst snd] in *. rewrite Hcont in *.
    destruct (queue_run N ops q1) as [evs q2]. cbn [fst snd] in *.
    destruct (exec T dflt N o s) as [v s0|w s0| |]; cbn in Hobs;
      inversion Hobs; subst; rewrite Hrun; cbn [map_outcome event_of];
      (split; [reflexivity|]; split; [reflexivity | split; assumption]).
Qed.
End QueueFacts.

(** ** How the calls compose *)

Section ComposeFacts.
Variable T : Type.
Variable dflt : T.
Variable N : Z.
Hypothesis N_pos : 0 < N.
Hypothesis N_size_t : N < size_t_range.

Import ringbuffer.

Lemma pop_times_advances (k : nat) :
  forall s : ringbuffer T,
    well_formed N s ->
    pop_times N k s =
      mk (buff s) (writepos s)
         (wrapfront N (readpos s) (Z.min (Z.of_nat k) (available s)))
         (available s - Z.min (Z.of_nat k) (available s)).
Proof.
  induction k as [|k IH]; intros s Hwf;
    pose proof Hwf as (Hlen & Hw & Hr & Ha).
  - cbn [pop_times]. change (Z.of_nat 0) with 0.
    rewrite Z.min_l by lia.
    rewrite wrapfront_zero, Z.sub_0_r by assumption.
    destruct s; reflexivity.
  - cbn [pop_times]. unfold pop.
    destruct (Z.eqb_spec (available s) 0) as [E|E]; cbn [negb].
    + rewrite IH by assumption. rewrite E.
      rewrite !Z.min_r by lia. reflexivity.
    + rewrite IH; cbn [buff writepos readpos available].
      * rewrite wrap_small by lia.
        rewrite wrapfront_add by (assumption || lia).
        replace (1 + Z.min (Z.of_nat k) (available s - 1))
          with (Z.min (Z.of_nat (S k)) (available s)) by lia.
        f_equal. lia.
      * unfold well_formed. cbn [buff writepos readpos available].
        pose proof (wrapfront_range N N_pos N_size_t (readpos s) 1).
        pose proof (wrap_range (available s - 1)).
        repeat split; try assumption; lia.
Qed.

(** No call other than the two that reach [temporary_copy] moves an
    iterator outside storage. *)
Lemma exec_defined (o : op T) (s : ringbuffer T) :
  well_formed N s -> op_ok o -> copies o = false ->
  exec T dflt N o s <> Undefined.
Proof.
  intros Hwf Hok Hc. pose proof Hwf as (Hlen & Hw & Hr & Ha).
  destruct o; try discriminate Hc; cbn [exec op_ok] in *.
  - unfold emplace. destruct (available s <? N); discriminate.
  - unfold pop. destruct (negb (available s =? 0)); discriminate.
  - unfold front. destruct (negb (available s =? 0)); discriminate.
  - unfold read. destruct (negb (available s =? 0)); discriminate.
  - destruct (Z.leb_spec n (available s)).
    + rewrite read_n_returns by (assumption || lia). discriminate.
    + unfold read_n. destruct (Z.leb_spec n (available s)); [lia|].
      discriminate.
  - unfold read_all. rewrite read_n_returns by (assumption || lia).
    discriminate.
  - rewrite erase_returns by (assumption || lia). discriminate.
  - unfold clear. rewrite erase_returns by (assumption || lia).
    discriminate.
  - discriminate.
  - discriminate.
Qed.

(** [temporary_copy] once the span reaches the last slot. *)
Lemma temporary_copy_at_last_slot (n : Z) (s : ringbuffer T) :
  well_formed N s -> 0 <= n <= available s ->
  last N < readpos s + n ->
  n - (last N - readpos s) + 1 < size_t_range ->
  temporary_copy T N n s =
    if n - (last N - readpos s) + 1 <=? N
    then Some (firstn (Z.to_nat (n - (last N - readpos s) + 1)) (buff s)
               ++ skipn (Z.to_nat (readpos s)) (buff s))
    else None.
Proof.
  intros (Hlen & Hw & Hr & Ha) Hn Hspan Hk. unfold temporary_copy.
  rewrite Z.min_l by lia.
  destruct (Z.leb_spec (readpos s + n) (last N)); [lia|].
  unfold last, first in *.
  rewrite wrap_small by lia. unfold slice.
  destruct (Z.leb_spec 0 (readpos s - 0)); [|lia].
  destruct (Z.leb_spec (readpos s - 0)
              (readpos s - 0 + (N - 1 - readpos s + 1))); [|lia].
  destruct (Z.leb_spec (readpos s - 0 + (N - 1 - readpos s + 1)) N);
    [|lia].
  destruct (Z.leb_spec 0 (0 + (n - (N - 1 - readpos s) + 1))); [|lia].
  cbn [andb].
  replace (0 + (n - (N - 1 - readpos s) + 1))
    with (n - (N - 1 - readpos s) + 1) by lia.
  destruct (Z.leb_spec (n - (N - 1 - readpos s) + 1) N); [|reflexivity].
  rewrite app_nil_r, Z.sub_0_r, Z.sub_0_r.
  match goal with
  | |- context [firstn ?k (skipn ?r ?b)] =>
      replace (firstn k (skipn r b)) with (skipn r b)
        by (symmetry; apply firstn_all2; rewrite length_skipn; lia)
  end.
  reflexivity.
Qed.
End ComposeFacts.

(** ** The lock of the concurrent variant *)

Section LockFacts.
Variable T : Type.
Variable dflt : T.
Variable N : Z.

Lemma quiescent_at_rest (s : datum.ringbuffer T) :
  quiescent s -> s = at_rest (datum.sequential s).
Proof.
  unfold quiescent. destruct s as [b w r a l]. cbn. intros ->.
  reflexivity.
Qed.

Lemma lift_final_at_rest {A : Type}
      (r : outcome (ringbuffer.ringbuffer T) A) (s' : datum.ringbuffer T) :
  final_state (lift r) = Some s' -> quiescent s'.
Proof.
  destruct r; cbn; intros H; inversion H; reflexivity.
Qed.

(** A call that comes to an end on the concurrent object at rest leaves
    the object at rest. *)
Lemma datum_exec_quiescent (o : op T) (s s' : datum.ringbuffer T) :
  quiescent s ->
  final_state (datum.exec T dflt N o s) = Some s' ->
  quiescent s'.
Proof.
  intros Hq Hfin. rewrite (quiescent_at_rest s Hq) in Hfin.
  destruct (copies o) eqn:Hc.
  - destruct o; try discriminate Hc; cbn [datum.exec] in Hfin.
    + destruct (Z.le_gt_cases n (ringbuffer.available (datum.sequential s)))
        as [Hle|Hgt].
      * rewrite datum_safe_read_hangs in Hfin by exact Hle.
        discriminate Hfin.
      * rewrite datum_safe_read_throws in Hfin by exact Hgt.
        cbn in Hfin. inversion Hfin. reflexivity.
    + unfold datum.safe_read_all in Hfin.
      rewrite datum_safe_read_hangs in Hfin by (cbn; lia).
      discriminate Hfin.
  - rewrite datum_exec_at_rest in Hfin by exact Hc.
    eapply lift_final_at_rest. exact Hfin.
Qed.
End LockFacts.

(** ** Properties beyond the claims *)

Ltac sample_hyps s :=
  assert (HN : 0 < 4 < size_t_range) by (unfold size_t_range; lia);
  assert (Hwf : well_formed 4 s)
    by (unfold well_formed, size_t_range; cbn; repeat split; lia);
  assert (Hinv : invariant 4 s)
    by (unfold invariant; cbn; split; [lia | reflexivity]).

(** X1.  Advancing a cursor inside storage keeps it inside storage;
    advancing by [a] and then by [b] is advancing by [a + b]; and advancing
    by [N] more makes no difference. *)
Theorem X1_wrapfront_composes :
  forall N p a b : Z,
    0 < N < size_t_range ->
    0 <= p < N -> 0 <= a -> 0 <= b ->
    0 <= ringbuffer.wrapfront N p a < N
    /\ ringbuffer.wrapfront N (ringbuffer.wrapfront N p a) b =
         ringbuffer.wrapfront N p (a + b)
    /\ ringbuffer.wrapfront N p (a + N) = ringbuffer.wrapfront N p a.
Proof.
  intros N p a b [HN0 HN1] Hp Ha Hb. split; [|split].
  - apply wrapfront_range; assumption.
  - apply wrapfront_add; assumption.
  - rewrite !wrapfront_mod by lia.
    replace (p + (a + N)) with (p + a + 1 * N) by lia.
    apply Z.mod_add. lia.
Qed.

Lemma X1_wrapfront_composes_witness :
  ringbuffer.wrapfront 4 (ringbuffer.wrapfront 4 3 2) 7 =
    ringbuffer.wrapfront 4 3 (2 + 7).
Proof.
  assert (HN : 0 < 4 < size_t_range) by (unfold size_t_range; lia).
  apply (X1_wrapfront_composes 4 3 2 7 HN); lia.
Defined.

(** X2.  Whatever calls a caller makes on a fresh buffer, the object keeps
    [N] slots of storage, both cursors point into storage and the count is
    a [std::size_t]: no call dereferences a cursor outside storage. *)
Theorem X2_cursors_stay_in_storage :
  forall (T : Type) (dflt : T) (N : Z) (s : ringbuffer.ringbuffer T),
    0 < N < size_t_range ->
    reachable T dflt N s ->
    List.length (ringbuffer.buff s) = Z.to_nat N
    /\ 0 <= ringbuffer.writepos s < N
    /\ 0 <= ringbuffer.readpos s < N
    /\ 0 <= ringbuffer.available s < size_t_range.
Proof.
  intros T dflt N s [HN0 HN1] Hreach.
  exact (reachable_well_formed T dflt N HN0 HN1 s Hreach).
Qed.

Lemma X2_cursors_stay_in_storage_witness :
  0 <= ringbuffer.readpos (ringbuffer.mk [5; 0; 0; 0] 1 1 0) < 4.
Proof.
  assert (HN : 0 < 4 < size_t_range) by (unfold size_t_range; lia).
  assert (Hreach : reachable Z 0 4 (ringbuffer.mk [5; 0; 0; 0] 1 1 0)).
  { apply (reach_step Z 0 4 _ Read (ringbuffer.mk [5; 0; 0; 0] 1 0 1));
      [| reflexivity | exact I | reflexivity].
    apply (reach_step Z 0 4 _ (Emplace 5) (ringbuffer.init Z 0 4));
      [apply reach_init | reflexivity | exact I | reflexivity]. }
  apply (X2_cursors_stay_in_storage Z 0 4 _ HN Hreach).
Defined.



(** X4.  As long as the caller uses neither [read (n)] nor [read_all ()],
    after every call the count is at most the capacity and the write cursor
    is the read cursor advanced by the count. *)
Theorem X4_invariant_without_bulk_reads :
  forall (T : Type) (dflt : T) (N : Z) (s : ringbuffer.ringbuffer T),
    0 < N < size_t_range ->
    reachable_by T dflt N (fun o => negb (bulk_reads o)) s ->
    0 <= ringbuffer.available s <= N
    /\ ringbuffer.writepos s =
         ringbuffer.wrapfront N (ringbuffer.readpos s)
                              (ringbuffer.available s).
Proof.
  intros T dflt N s [HN0 HN1] Hreach.
  exact (invariant_without_bulk_reads T dflt N HN0 HN1 s Hreach).
Qed.

Lemma X4_invariant_without_bulk_reads_witness :
  ringbuffer.writepos (ringbuffer.mk [5; 0; 0; 0] 1 1 0) =
    ringbuffer.wrapfront 4
      (ringbuffer.readpos (ringbuffer.mk [5; 0; 0; 0] 1 1 0))
      (ringbuffer.available (ringbuffer.mk [5; 0; 0; 0] 1 1 0)).
Proof.
  assert (HN : 0 < 4 < size_t_range) by (unfold size_t_range; lia).
  assert (Hreach : reachable_by Z 0 4 (fun o => negb (bulk_reads o))
                     (ringbuffer.mk [5; 0; 0; 0] 1 1 0)).
  { apply (reach_step Z 0 4 _ Read (ringbuffer.mk [5; 0; 0; 0] 1 0 1));
      [| reflexivity | exact I | reflexivity].
    apply (reach_step Z 0 4 _ (Emplace 5) (ringbuffer.init Z 0 4));
      [apply reach_init | reflexivity | exact I | reflexivity]. }
  apply (X4_invariant_without_bulk_reads Z 0 4 _ HN Hreach).
Defined.

(** X5.  A bounded queue.  On an object that satisfies the invariant, a run
    of [emplace], [pop], [front], [read ()], [erase (n)], [clear], [size]
    and [capacity] calls shows the caller exactly what the same run shows
    on a first-in first-out queue of at most [N] elements that starts with
    the live elements of the buffer, and the live elements at the end are
    the elements of that queue. *)
Theorem X5_plain_calls_are_a_bounded_queue :
  forall (T : Type) (dflt : T) (N : Z) (ops : list (op T))
         (s : ringbuffer.ringbuffer T),
    0 < N < size_t_range ->
    well_formed N s -> invariant N s ->
    Forall op_ok ops -> forallb plain ops = true ->
    exists s' : ringbuffer.ringbuffer T,
      ringbuffer.run T dflt N ops s =
        Returns (fst (queue_run N ops (contents dflt N s))) s'
      /\ contents dflt N s' = snd (queue_run N ops (contents dflt N s))
      /\ well_formed N s' /\ invariant N s'.
Proof.
  intros T dflt N ops s [HN0 HN1] Hwf Hinv Hok Hplain.
  exact (queue_run_from T dflt N HN0 HN1 ops s Hwf Hinv Hok Hplain).
Qed.

Lemma X5_plain_calls_are_a_bounded_queue_witness :
  exists s' : ringbuffer.ringbuffer Z,
    ringbuffer.run Z 0 4
      [Emplace 8; Emplace 9; Read; Erase 2; Emplace 1; Front; Size]
      (ringbuffer.mk [5; 6; 7; 0] 3 0 3) =
      Returns [Ret VUnit; Ret VUnit; Ret (VElem 5); Ret VUnit; Ret VUnit;
               Ret (VElem 8); Ret (VNum 2)] s'
    /\ contents 0 4 s' = [8; 1].
Proof.
  sample_hyps (ringbuffer.mk [5; 6; 7; 0] 3 0 3).
  assert (Hok : Forall (@op_ok Z)
                  [Emplace 8; Emplace 9; Read; Erase 2; Emplace 1;
                   Front; Size])
    by (repeat constructor; unfold size_t_range; lia).
  destruct (X5_plain_calls_are_a_bounded_queue Z 0 4 _ _ HN Hwf Hinv Hok
              eq_refl) as (s' & Hrun & Hcont & _).
  exists s'. split; [exact Hrun | exact Hcont].
Defined.

(** X6.  On a buffer that is not empty, [read ()] returns the element
    [front ()] returns and leaves the object [pop ()] leaves; [front ()]
    itself leaves the object as it was.  On an empty buffer [pop ()]
    returns normally and changes nothing. *)
Theorem X6_read_is_front_then_pop :
  forall (T : Type) (dflt : T) (N : Z) (s : ringbuffer.ringbuffer T),
    (ringbuffer.size T s <> 0 ->
       exists (x : T) (s' : ringbuffer.ringbuffer T),
         ringbuffer.front T dflt s = Returns x s
         /\ ringbuffer.pop T N s = Returns tt s'
         /\ ringbuffer.read T dflt N s = Returns x s')
    /\ (ringbuffer.size T s = 0 -> ringbuffer.pop T N s = Returns tt s).
Proof.
  intros T dflt N s. unfold ringbuffer.size. split; intros Hsz.
  - unfold ringbuffer.front, ringbuffer.pop, ringbuffer.read.
    destruct (Z.eqb_spec (ringbuffer.available s) 0); [contradiction|].
    cbn [negb]. eexists. eexists.
    split; [reflexivity|]. split; reflexivity.
  - unfold ringbuffer.pop. rewrite Hsz. reflexivity.
Qed.

Lemma X6_read_is_front_then_pop_witness :
  exists (x : Z) (s' : ringbuffer.ringbuffer Z),
    ringbuffer.front Z 0 (ringbuffer.mk [5; 6; 7; 0] 3 1 2) =
      Returns x (ringbuffer.mk [5; 6; 7; 0] 3 1 2)
    /\ ringbuffer.pop Z 4 (ringbuffer.mk [5; 6; 7; 0] 3 1 2) =
         Returns tt s'
    /\ ringbuffer.read Z 0 4 (ringbuffer.mk [5; 6; 7; 0] 3 1 2) =
         Returns x s'.
Proof.
  apply (X6_read_is_front_then_pop Z 0 4
           (ringbuffer.mk [5; 6; 7; 0] 3 1 2)).
  cbn. lia.
Defined.

(** X7.  [erase (n)] does what [n] calls of [pop ()] in a row do, a
    request for more elements than there are being cut down silently;
    [clear ()] does what [size ()] calls of [pop ()] do.  The live elements
    afterwards are the old ones without their first [n]. *)
Theorem X7_erase_is_repeated_pop :
  forall (T : Type) (dflt : T) (N n : Z) (s : ringbuffer.ringbuffer T),
    0 < N < size_t_range ->
    well_formed N s -> 0 <= n ->
    ringbuffer.erase T N n s = Returns tt (pop_times N (Z.to_nat n) s)
    /\ ringbuffer.clear T N s =
         Returns tt (pop_times N (Z.to_nat (ringbuffer.size T s)) s)
    /\ contents dflt N (pop_times N (Z.to_nat n) s) =
         skipn (Z.to_nat n) (contents dflt N s).
Proof.
  intros T dflt N n s [HN0 HN1] Hwf Hn.
  pose proof Hwf as (Hlen & Hw & Hr & Ha).
  split; [|split].
  - rewrite erase_returns, pop_times_advances by (assumption || lia).
    rewrite Z2Nat.id by lia. reflexivity.
  - unfold ringbuffer.clear, ringbuffer.size.
    rewrite erase_returns, pop_times_advances by (assumption || lia).
    rewrite Z2Nat.id by lia. reflexivity.
  - rewrite pop_times_advances by assumption.
    rewrite contents_advance by (assumption || lia).
    rewrite Z2Nat.id by lia.
    destruct (Z.le_ge_cases n (ringbuffer.available s)).
    + rewrite Z.min_l by lia. reflexivity.
    + rewrite Z.min_r by lia.
      rewrite !skipn_all2 by (rewrite contents_length; lia).
      reflexivity.
Qed.

Lemma X7_erase_is_repeated_pop_witness :
  ringbuffer.erase Z 4 2 (ringbuffer.mk [5; 6; 7; 0] 3 0 3) =
    Returns tt (pop_times 4 2 (ringbuffer.mk [5; 6; 7; 0] 3 0 3)).
Proof.
  sample_hyps (ringbuffer.mk [5; 6; 7; 0] 3 0 3).
  apply (X7_erase_is_repeated_pop Z 0 4 2 _ HN Hwf). lia.
Defined.



(** X9.  After [read_all ()] on an object that satisfies the invariant the
    caller has all live elements in order, but [size ()] reports
    [2^64 - 1] and [capacity ()] reports [N + 1] modulo [2^64]; from then
    on [emplace] drops its element and [front ()] returns a stale slot
    instead of throwing. *)
Theorem X9_after_read_all :
  forall (T : Type) (dflt : T) (N : Z) (s : ringbuffer.ringbuffer T),
    0 < N < size_t_range ->
    well_formed N s -> invariant N s ->
    exists s' : ringbuffer.ringbuffer T,
      ringbuffer.read_all T dflt N s = Returns (contents dflt N s) s'
      /\ ringbuffer.size T s' = size_t_range - 1
      /\ ringbuffer.capacity T N s' = (N + 1) mod size_t_range
      /\ (forall x : T, ringbuffer.emplace T N x s' = Returns tt s')
      /\ ringbuffer.front T dflt s' =
           Returns (deref dflt (ringbuffer.buff s') (ringbuffer.readpos s'))
                   s'.
Proof.
  intros T dflt N s [HN0 HN1] Hwf [Hcnt Hcur].
  pose proof Hwf as (Hlen & Hw & Hr & Ha).
  unfold ringbuffer.read_all.
  rewrite read_n_returns by (assumption || lia).
  replace (ringbuffer.available s - ringbuffer.available s - 1)
    with (0 - 1) by lia.
  rewrite wrap_minus_one. eexists. split; [reflexivity|].
  split; [reflexivity|]. split; [|split].
  - unfold ringbuffer.capacity, wrap. cbn [ringbuffer.available].
    replace (N - (size_t_range - 1))
      with (N + 1 + (-1) * size_t_range) by lia.
    apply Z.mod_add. unfold size_t_range. lia.
  - intros x. unfold ringbuffer.emplace. cbn [ringbuffer.available].
    destruct (Z.ltb_spec (size_t_range - 1) N); [lia | reflexivity].
  - reflexivity.
Qed.

Lemma X9_after_read_all_witness :
  exists s' : ringbuffer.ringbuffer Z,
    ringbuffer.read_all Z 0 4 (ringbuffer.mk [5; 6; 7; 0] 3 0 3) =
      Returns (contents 0 4 (ringbuffer.mk [5; 6; 7; 0] 3 0 3)) s'
    /\ ringbuffer.size Z s' = size_t_range - 1
    /\ ringbuffer.emplace Z 4 9 s' = Returns tt s'.
Proof.
  sample_hyps (ringbuffer.mk [5; 6; 7; 0] 3 0 3).
  destruct (X9_after_read_all Z 0 4 _ HN Hwf Hinv)
    as (s' & Hread & Hsize & _ & Hdrop & _).
  exists s'. split; [exact Hread|]. split; [exact Hsize | apply Hdrop].
Defined.

(** X10.  While the requested span ends before the last slot
    ([readpos + n <= last]), [safe_read (n)] returns the first [n] live
    elements and leaves the object [erase (n)] leaves. *)
Theorem X10_safe_read_before_last_slot :
  forall (T : Type) (dflt : T) (N n : Z) (s : ringbuffer.ringbuffer T),
    0 < N < size_t_range ->
    well_formed N s -> 0 <= n <= ringbuffer.size T s ->
    ringbuffer.readpos s + n <= ringbuffer.last N ->
    exists s' : ringbuffer.ringbuffer T,
      ringbuffer.safe_read T N n s =
        Returns (firstn (Z.to_nat n) (contents dflt N s)) s'
      /\ ringbuffer.erase T N n s = Returns tt s'
      /\ ringbuffer.size T s' = ringbuffer.size T s - n.
Proof.
  intros T dflt N n s [HN0 HN1] Hwf Hn Hspan.
  unfold ringbuffer.size in *.
  pose proof Hwf as (Hlen & Hw & Hr & Ha).
  eexists. split; [|split].
  - rewrite (safe_read_contiguous T dflt N) by assumption.
    unfold contents, oldest.
    rewrite <- (walk_firstn T dflt N) by lia. reflexivity.
  - rewrite erase_returns by (assumption || lia).
    rewrite Z.min_l by lia. rewrite wrapfront_mod by lia.
    unfold ringbuffer.last in Hspan.
    rewrite Z.mod_small by lia. reflexivity.
  - reflexivity.
Qed.

Lemma X10_safe_read_before_last_slot_witness :
  exists s' : ringbuffer.ringbuffer Z,
    ringbuffer.safe_read Z 4 2 (ringbuffer.mk [5; 6; 7; 0] 3 0 3) =
      Returns (firstn 2 (contents 0 4 (ringbuffer.mk [5; 6; 7; 0] 3 0 3)))
              s'
    /\ ringbuffer.erase Z 4 2 (ringbuffer.mk [5; 6; 7; 0] 3 0 3) =
         Returns tt s'.
Proof.
  sample_hyps (ringbuffer.mk [5; 6; 7; 0] 3 0 3).
  destruct (X10_safe_read_before_last_slot Z 0 4 2 _ HN Hwf)
    as (s' & Hsafe & Herase & _).
  - cbn. lia.
  - cbn. lia.
  - exists s'. split; [exact Hsafe | exact Herase].
Defined.



(** X12.  The lock.  On a free [rw_mutex] whose reader count can still
    grow, taking a reader entity succeeds and leaves the mutex free, so a
    writer entity can be taken while the reader entity lives; dropping the
    reader entity restores the lock.  Taking a writer entity succeeds and
    holds the mutex; while it is held neither [write_lock] nor [read_lock]
    can be passed; dropping it restores the lock. *)
Theorem X12_rw_mutex :
  forall l : datum.rw_mutex,
    datum.mut l = false ->
    0 <= datum.readers l < size_t_range - 1 ->
    (exists l' : datum.rw_mutex,
        datum.read_lock l = Some l'
        /\ datum.mut l' = false
        /\ datum.write_lock l' <> None
        /\ datum.read_unlock l' = l)
    /\ (exists l' : datum.rw_mutex,
           datum.write_lock l = Some l'
           /\ datum.mut l' = true
           /\ datum.write_lock l' = None
           /\ datum.read_lock l' = None
           /\ datum.write_unlock l' = l).
Proof.
  intros [m r] Hm Hr. cbn [datum.mut datum.readers] in Hm, Hr.
  subst m. split.
  - exists (datum.mk_mutex false (r + 1)).
    unfold datum.read_lock, datum.read_unlock, datum.write_lock.
    cbn [datum.mut datum.readers].
    rewrite (wrap_small (r + 1)) by lia.
    destruct (Z.eqb_spec (r + 1) 0); [lia|]. cbn [negb].
    replace (r + 1 - 1) with r by lia. rewrite wrap_small by lia.
    repeat split. discriminate.
  - exists (datum.mk_mutex true r). repeat split.
Qed.

Lemma X12_rw_mutex_witness :
  exists l' : datum.rw_mutex,
    datum.read_lock (datum.mk_mutex false 0) = Some l'
    /\ datum.mut l' = false
    /\ datum.write_lock l' <> None
    /\ datum.read_unlock l' = datum.mk_mutex false 0.
Proof.
  apply (X12_rw_mutex (datum.mk_mutex false 0)).
  - reflexivity.
  - cbn. unfold size_t_range. lia.
Defined.




